(** * marc: a minimal static-site generator (marc.go)

    Shallow embedding of the document pipeline of [marc.go] and the
    properties of its specification: front-matter extraction ([readMeta]),
    URL derivation ([readPage]), the ordering of the page registry
    ([Pages.Less] under [sort.Stable]), the [dateformat] template function,
    layout resolution ([readTmpl]) and the render loop of [main].

    Go strings and byte slices are both sequences of 8-bit bytes and are
    modelled as [list ascii]; Go [int] values that may hold the sentinel
    [-1] are modelled as [Z]. *)

From Stdlib Require Import ZArith Ascii Lia.
From stdpp Require Import base list strings gmap fin_maps sorting.

Local Open Scope Z_scope.

Abbreviation bytes := (list ascii).

(** A string literal as a byte sequence. *)
Definition str (s : string) : bytes := String.list_ascii_of_string s.

(** The numeric value of a byte. *)
Definition byte_val (c : ascii) : Z := Z.of_N (N_of_ascii c).

(** Go's [len]. *)
Definition len {A} (l : list A) : Z := Z.of_nat (length l).

(** ** Slicing

    Go slice expressions panic when the indices are out of range; [None]
    stands for that run-time panic. *)

(** [s[lo:hi]] *)
Definition slice {A} (s : list A) (lo hi : Z) : option (list A) :=
  if (0 <=? lo) && (lo <=? hi) && (hi <=? len s)
  then Some (take (Z.to_nat (hi - lo)) (drop (Z.to_nat lo) s))
  else None.

(** [s[:hi]] *)
Definition slice_to {A} (s : list A) (hi : Z) : option (list A) := slice s 0 hi.

(** [s[lo:]] *)
Definition slice_from {A} (s : list A) (lo : Z) : option (list A) := slice s lo (len s).

(** ** The Go standard library functions that [marc.go] calls

    These are not part of the repository; each is modelled after its
    documented behaviour in package [bytes], [strings], [unicode],
    [unicode/utf8] and [path/filepath] (Unix flavour). *)

Module utf8.

Definition RuneError : Z := 0xFFFD.
Definition RuneSelf : Z := 0x80.
Definition UTFMax : Z := 4.

(** The table [first]: for a leading byte, the length of the encoding
    and the accepted range of the second byte; [None] is an invalid
    leading byte.  ASCII bytes are handled before the table is used. *)
Definition first (b : Z) : option (nat * Z * Z) :=
  if b <? 0xC2 then None
  else if b <=? 0xDF then Some (2%nat, 0x80, 0xBF)
  else if b =? 0xE0 then Some (3%nat, 0xA0, 0xBF)
  else if b <=? 0xEC then Some (3%nat, 0x80, 0xBF)
  else if b =? 0xED then Some (3%nat, 0x80, 0x9F)
  else if b <=? 0xEF then Some (3%nat, 0x80, 0xBF)
  else if b =? 0xF0 then Some (4%nat, 0x90, 0xBF)
  else if b <=? 0xF3 then Some (4%nat, 0x80, 0xBF)
  else if b =? 0xF4 then Some (4%nat, 0x80, 0x8F)
  else None.

(** Continuation byte: [locb <= b <= hicb]. *)
Definition cont (b : Z) : bool := (0x80 <=? b) && (b <=? 0xBF).

(** [utf8.DecodeRuneInString]: the first rune of [s] and its width in
    bytes; an invalid or truncated encoding yields [(RuneError, 1)], the
    empty string [(RuneError, 0)]. *)
Definition DecodeRune (s : bytes) : Z * nat :=
  match s with
  | [] => (RuneError, 0%nat)
  | c0 :: t =>
    let s0 := byte_val c0 in
    if s0 <? RuneSelf then (s0, 1%nat)
    else
      match first s0 with
      | None => (RuneError, 1%nat)
      | Some (sz, lo, hi) =>
        if (length s <? sz)%nat then (RuneError, 1%nat)
        else
          match t with
          | [] => (RuneError, 1%nat)
          | c1 :: t1 =>
            let s1 := byte_val c1 in
            if (s1 <? lo) || (hi <? s1) then (RuneError, 1%nat)
            else if (sz <=? 2)%nat
            then (Z.lor (Z.shiftl (Z.land s0 0x1F) 6) (Z.land s1 0x3F), 2%nat)
            else
              match t1 with
              | [] => (RuneError, 1%nat)
              | c2 :: t2 =>
                let s2 := byte_val c2 in
                if negb (cont s2) then (RuneError, 1%nat)
                else if (sz <=? 3)%nat
                then (Z.lor (Z.lor (Z.shiftl (Z.land s0 0x0F) 12)
                                   (Z.shiftl (Z.land s1 0x3F) 6))
                            (Z.land s2 0x3F), 3%nat)
                else
                  match t2 with
                  | [] => (RuneError, 1%nat)
                  | c3 :: _ =>
                    let s3 := byte_val c3 in
                    if negb (cont s3) then (RuneError, 1%nat)
                    else (Z.lor (Z.lor (Z.lor (Z.shiftl (Z.land s0 0x07) 18)
                                              (Z.shiftl (Z.land s1 0x3F) 12))
                                       (Z.shiftl (Z.land s2 0x3F) 6))
                                (Z.land s3 0x3F), 4%nat)
                  end
              end
          end
      end
  end.

(** [utf8.RuneStart]: the byte is not a continuation byte. *)
Definition RuneStart (b : Z) : bool := negb (Z.land b 0xC0 =? 0x80).

(** The backward scan of [DecodeLastRuneInString]:
    [for start--; start >= lim; start-- { if RuneStart(s[start]) { break } }] *)
Fixpoint scan_back (s : bytes) (start lim : Z) (fuel : nat) : Z :=
  match fuel with
  | O => start
  | S fuel' =>
    if start <? lim then start
    else if RuneStart (from_option byte_val 0 (s !! Z.to_nat start)) then start
    else scan_back s (start - 1) lim fuel'
  end.

(** [utf8.DecodeLastRuneInString]: the last rune of [s] and its width. *)
Definition DecodeLastRune (s : bytes) : Z * nat :=
  let end_ := len s in
  if end_ =? 0 then (RuneError, 0%nat)
  else
    let start := end_ - 1 in
    let r := from_option byte_val 0 (s !! Z.to_nat start) in
    if r <? RuneSelf then (r, 1%nat)
    else
      let lim := Z.max 0 (end_ - UTFMax) in
      let start := scan_back s (start - 1) lim 4 in
      let start := Z.max 0 start in
      let '(r, size) := DecodeRune (drop (Z.to_nat start) s) in
      if start + Z.of_nat size =? end_ then (r, size) else (RuneError, 1%nat).

End utf8.

Module unicode.

(** [unicode.IsSpace]: the Unicode White_Space property.  In Latin-1 the
    spaces are tab, newline, vertical tab, form feed, carriage return,
    space, U+0085 (NEL) and U+00A0 (NBSP); beyond Latin-1 the table
    [White_Space] lists U+1680, U+2000..U+200A, U+2028, U+2029, U+202F,
    U+205F and U+3000. *)
Definition IsSpace (r : Z) : bool :=
  if r <=? 0xFF
  then (r =? 0x09) || (r =? 0x0A) || (r =? 0x0B) || (r =? 0x0C) || (r =? 0x0D)
       || (r =? 0x20) || (r =? 0x85) || (r =? 0xA0)
  else (r =? 0x1680) || ((0x2000 <=? r) && (r <=? 0x200A))
       || (r =? 0x2028) || (r =? 0x2029) || (r =? 0x202F)
       || (r =? 0x205F) || (r =? 0x3000).

End unicode.

(** [bytes.HasPrefix] / [strings.HasPrefix]. *)
Definition HasPrefix (s prefix : bytes) : bool := bool_decide (prefix `prefix_of` s).

(** [strings.HasSuffix]. *)
Definition HasSuffix (s suffix : bytes) : bool := bool_decide (suffix `suffix_of` s).

(** [bytes.Equal]. *)
Definition Equal (a b : bytes) : bool := bool_decide (a = b).

(** [bytes.Index] / [strings.Index]: the index of the first instance of
    [sep] in [s], or [-1] if [sep] is not present in [s]. *)
Fixpoint Index_from (i : Z) (s sep : bytes) : Z :=
  if HasPrefix s sep then i
  else match s with
       | [] => -1
       | _ :: s' => Index_from (i + 1) s' sep
       end.

Definition Index (s sep : bytes) : Z := Index_from 0 s sep.

(** The loop of [strings.genSplit] for a non-empty separator: cut [s] at
    the first [cuts] instances of [sep]; the last element is the unsplit
    remainder. *)
Fixpoint split_loop (cuts : nat) (s sep : bytes) : list bytes :=
  match cuts with
  | O => [s]
  | S cuts' =>
    let m := Index s sep in
    if m <? 0 then [s]
    else take (Z.to_nat m) s
         :: split_loop cuts' (drop (Z.to_nat m + length sep) s) sep
  end.

(** [strings.SplitN(s, sep, n)] for a non-empty [sep] and [n > 0]: at most
    [n] substrings, and never more than [len(s) + 1]. *)
Definition SplitN (s sep : bytes) (n : nat) : list bytes :=
  split_loop (Nat.min n (length s + 1) - 1) s sep.

(** [strings.Split(s, sep)] for a non-empty [sep]: all substrings
    separated by [sep].  ([genSplit] runs with [n = Count(s, sep) + 1]; the
    loop stops at the first failed [Index], and [s] cannot hold more than
    [len(s)] instances of [sep].) *)
Definition Split (s sep : bytes) : list bytes := split_loop (length s) s sep.

(** [strings.TrimSuffix]: [s] without the trailing [suffix]; [s] itself
    when it does not end with [suffix]. *)
Definition TrimSuffix (s suffix : bytes) : bytes :=
  if HasSuffix s suffix then take (length s - length suffix) s else s.

(** [strings.IndexFunc]-style scan [indexFunc(s, f, truth)]: the byte index
    of the first rune [r] with [f r = truth], or [-1]. *)
Fixpoint indexFunc_from (fuel : nat) (i : Z) (s : bytes) (f : Z → bool) (truth : bool) : Z :=
  match fuel with
  | O => -1
  | S fuel' =>
    match s with
    | [] => -1
    | _ :: _ =>
      let '(r, size) := utf8.DecodeRune s in
      if Bool.eqb (f r) truth then i
      else indexFunc_from fuel' (i + Z.of_nat size) (drop size s) f truth
    end
  end.

Definition indexFunc (s : bytes) (f : Z → bool) (truth : bool) : Z :=
  indexFunc_from (length s) 0 s f truth.

(** [lastIndexFunc(s, f, truth)]: the byte index of the last rune [r] with
    [f r = truth], or [-1]. *)
Fixpoint lastIndexFunc_fuel (fuel : nat) (s : bytes) (f : Z → bool) (truth : bool) : Z :=
  match fuel with
  | O => -1
  | S fuel' =>
    match s with
    | [] => -1
    | _ :: _ =>
      let '(r, size) := utf8.DecodeLastRune s in
      let i := (length s - size)%nat in
      if Bool.eqb (f r) truth then Z.of_nat i
      else lastIndexFunc_fuel fuel' (take i s) f truth
    end
  end.

Definition lastIndexFunc (s : bytes) (f : Z → bool) (truth : bool) : Z :=
  lastIndexFunc_fuel (length s) s f truth.

(** [strings.TrimLeftFunc]. *)
Definition TrimLeftFunc (s : bytes) (f : Z → bool) : bytes :=
  let i := indexFunc s f false in
  if i =? -1 then [] else drop (Z.to_nat i) s.

(** [strings.TrimRightFunc]. *)
Definition TrimRightFunc (s : bytes) (f : Z → bool) : bytes :=
  let i := lastIndexFunc s f false in
  let i :=
    if (0 <=? i) && (utf8.RuneSelf <=? from_option byte_val 0 (s !! Z.to_nat i))
    then i + Z.of_nat (snd (utf8.DecodeRune (drop (Z.to_nat i) s)))
    else i + 1 in
  take (Z.to_nat i) s.

(** [strings.TrimFunc]. *)
Definition TrimFunc (s : bytes) (f : Z → bool) : bytes :=
  TrimRightFunc (TrimLeftFunc s f) f.

(** [strings.TrimSpace]: [s] with all leading and trailing white space
    removed, as defined by Unicode.  (The library has a fast path for
    ASCII and otherwise falls back on [TrimFunc] with [unicode.IsSpace];
    both agree.) *)
Definition TrimSpace (s : bytes) : bytes := TrimFunc s unicode.IsSpace.

(** ** Go maps

    A [map[string]string] value is either [nil] or a reference to a table;
    indexing a [nil] map, or a key that is absent, yields the zero value
    (the empty string). *)
Definition GoMap : Type := option (gmap bytes bytes).

Definition nil_map : GoMap := None.

Definition map_index (m : GoMap) (k : bytes) : bytes :=
  match m with
  | None => []
  | Some t => default [] (t !! k)
  end.

Definition map_len (m : GoMap) : nat :=
  match m with
  | None => 0%nat
  | Some t => size t
  end.

(** ** [readMeta] (marc.go, lines 56-75) *)

Definition delim : bytes := str "---".

Definition nl : ascii := "010"%char.

(** The string ["\n"]. *)
Definition newline : bytes := [nl].

Definition colon : bytes := str ":".

(** The body of the loop over the preamble lines. *)
Definition readMeta_line (meta : gmap bytes bytes) (line : bytes) : gmap bytes bytes :=
  match SplitN line colon 2%nat with
  | [k; v] => <[TrimSpace k := TrimSpace v]> meta
  | _ => meta
  end.

Definition readMeta (b : bytes) : option (GoMap * bytes) :=
  if len b <? 3 then Some (nil_map, b)
  else
    b3 ← slice_to b 3;
    if negb (Equal b3 delim) then Some (nil_map, b)
    else
      tail ← slice_from b 3;
      let i := Index tail delim in
      if i =? -1 then Some (nil_map, b)
      else
        pre ← slice b 3 (i + 3);
        let meta := foldl readMeta_line ∅ (Split pre newline) in
        body ← slice_from b (i + 6);
        Some (Some meta, body).


(** ** The preamble format in the words of the specification

    "Text between the two delimiters is split into lines; each line is
    split on the first [:]; both sides are trimmed of surrounding
    whitespace; lines without a [:] are silently ignored.  Later duplicate
    keys overwrite earlier ones." *)

(** The lines of a text: the pieces between consecutive newlines. *)
Fixpoint spec_lines (s : bytes) : list bytes :=
  match s with
  | [] => [[]]
  | c :: s' =>
    if decide (c = nl) then [] :: spec_lines s'
    else match spec_lines s' with
         | l :: ls => (c :: l) :: ls
         | [] => [[c]]
         end
  end.

(** A line cut at its first [:]; [None] when it has none. *)
Fixpoint spec_cut (line : bytes) : option (bytes * bytes) :=
  match line with
  | [] => None
  | c :: l =>
    if decide (c = ":"%char) then Some ([], l)
    else prod_map (cons c) id <$> spec_cut l
  end.

(** The key/value pair a line contributes, both sides trimmed. *)
Definition spec_entry (line : bytes) : option (bytes * bytes) :=
  prod_map TrimSpace TrimSpace <$> spec_cut line.

(** The pairs of a preamble, in line order. *)
Definition spec_entries (pre : bytes) : list (bytes * bytes) :=
  omap spec_entry (spec_lines pre).

(** The metadata of a preamble: a later pair wins over an earlier one
    with the same key ([list_to_map] keeps the first pair of a key, hence
    the reversal). *)
Definition spec_meta (pre : bytes) : gmap bytes bytes :=
  list_to_map (reverse (spec_entries pre)).

(** ** More of the standard library: comparison, replacement, paths *)

(** [strings.Compare]: [-1], [0] or [+1] as [a] is less than, equal to
    or greater than [b] in the lexicographic order of their bytes. *)
Fixpoint Compare (a b : bytes) : Z :=
  match a, b with
  | [], [] => 0
  | [], _ :: _ => -1
  | _ :: _, [] => 1
  | x :: a', y :: b' =>
    if byte_val x <? byte_val y then -1
    else if byte_val y <? byte_val x then 1
    else Compare a' b'
  end.

(** [strings.Replace(s, old, new, n)] for a non-empty [old] and [n >= 0]:
    the first [n] non-overlapping instances of [old] are replaced by
    [new]. *)
Fixpoint Replace (s old new : bytes) (n : nat) : bytes :=
  match n with
  | O => s
  | S n' =>
    let j := Index s old in
    if j <? 0 then s
    else take (Z.to_nat j) s ++ new
         ++ Replace (drop (Z.to_nat j + length old) s) old new n'
  end.

Module filepath.

(** [os.IsPathSeparator] on Unix. *)
Definition IsPathSeparator (c : ascii) : bool := bool_decide (c = "/"%char).

(** The loop of [filepath.Ext], [n] being [i + 1]:
    [for i := len(path) - 1; i >= 0 && !os.IsPathSeparator(path[i]); i--
       { if path[i] == '.' { return path[i:] } }; return ""] *)
Fixpoint Ext_loop (path : bytes) (n : nat) : bytes :=
  match n with
  | O => []
  | S i =>
    match path !! i with
    | None => []
    | Some c =>
      if IsPathSeparator c then []
      else if bool_decide (c = "."%char) then drop i path
      else Ext_loop path i
    end
  end.

(** [filepath.Ext]: the suffix beginning at the final dot in the final
    element of [path]; empty if there is no dot. *)
Definition Ext (path : bytes) : bytes := Ext_loop path (length path).

End filepath.

(** ** Pages (marc.go, lines 21-32 and 77-85) *)

Record Page := mkPage {
  Meta : GoMap;
  Text : bytes;
  Url : bytes;
  HTML : bytes;
  AbsPath : bytes;
  RelPath : bytes;
}.

Definition sortKey (p : Page) : bytes := map_index (Meta p) (str "date").

Abbreviation Pages := (list Page).

(** [sort.Interface].  Indexing a slice out of range panics ([None]). *)
Class Interface (T : Type) := {
  Len : T → nat;
  Less : T → nat → nat → option bool;
  Swap : T → nat → nat → option T;
}.

Definition Pages_Len (p : Pages) : nat := length p.

Definition Pages_Less (p : Pages) (i j : nat) : option bool :=
  pi ← p !! i;
  pj ← p !! j;
  Some (0 <? Compare (sortKey pi) (sortKey pj)).

Definition Pages_Swap (p : Pages) (i j : nat) : option Pages :=
  pi ← p !! i;
  pj ← p !! j;
  Some (<[j := pi]> (<[i := pj]> p)).

#[export] Instance Pages_Interface : Interface Pages :=
  {| Len := Pages_Len; Less := Pages_Less; Swap := Pages_Swap |}.

(** ** [sort.Stable]

    [sort.Stable] sorts [data] in the order given by [Less] and keeps the
    original order of equal elements.  It runs [insertionSort] on blocks
    of 20 elements and then merges the blocks in place ([symMerge]); for
    up to 20 elements it is exactly [insertionSort(data, 0, n)].  A stable
    sort has one possible result (see [stable_sort_unique] below), so the
    model runs the insertion sort on the whole range. *)
Section sort.
Context {T : Type} `{Interface T}.

(** [for j := i; j > a && data.Less(j, j-1); j-- { data.Swap(j, j-1) }] *)
Fixpoint insert_at (data : T) (a j : nat) : option T :=
  match j with
  | O => Some data
  | S j' =>
    if (a <? j)%nat then
      lt ← Less data j j';
      if (lt : bool) then data' ← Swap data j j'; insert_at data' a j'
      else Some data
    else Some data
  end.

(** [for i := a + 1; i < b; i++ { ... }], with [n = b - i] iterations
    left. *)
Fixpoint insertionSort_from (n : nat) (data : T) (a i : nat) : option T :=
  match n with
  | O => Some data
  | S n' => data' ← insert_at data a i; insertionSort_from n' data' a (S i)
  end.

Definition insertionSort (data : T) (a b : nat) : option T :=
  insertionSort_from (b - (a + 1)) data a (a + 1).

Definition Stable (data : T) : option T := insertionSort data 0 (Len data).

End sort.

(** The insertion sort as a function on lists: [ins_rev x rp] puts [x]
    into the sorted prefix [rp], which is held in reverse (last element
    first), moving it past every element that [x] is [Less] than. *)
Fixpoint ins_rev (x : Page) (rp : list Page) : list Page :=
  match rp with
  | [] => [x]
  | y :: rp' =>
    if 0 <? Compare (sortKey x) (sortKey y) then y :: ins_rev x rp'
    else x :: rp
  end.

Definition isort (l : Pages) : Pages :=
  reverse (foldl (λ rp x, ins_rev x rp) [] l).

(** ** URL and output path (marc.go, lines 98-99 and 161-162) *)

Definition url_of (relpath : bytes) : bytes :=
  let url := TrimSuffix relpath (filepath.Ext relpath) ++ str ".html" in
  TrimSuffix url (str "index.html").

Definition outPath_of (abspath : bytes) : bytes :=
  let ext := filepath.Ext abspath in
  TrimSuffix abspath ext ++ str ".html".

(** The order of sort keys: [a] is at most [b], bytewise. *)
Definition key_le (p q : Page) : Prop := Compare (sortKey p) (sortKey q) <= 0.

(** ** The file system

    A flat view: what each path holds.  Modes are the permission bits. *)
Inductive node :=
| File (data : bytes) (mode : Z)
| Dir.

Abbreviation Disk := (gmap bytes node).

(** How a call of [os.WriteFile] on a path that is not a directory goes:
    it succeeds; or the file cannot be opened (permissions of the file or
    of its directory, a missing directory, ...) and nothing changes; or
    the file is opened, hence created or truncated, and the write or the
    close fails with [written] bytes in the file. *)
Inductive fault :=
| NoFault
| OpenFails (err : bytes)
| WriteFails (written : nat) (err : bytes).

(** ** What the run depends on

    The packages [time], [html/template], [goldmark] and the path
    functions [filepath.Rel] and [filepath.Join] are used by [marc.go] as
    black boxes, and the two embedded assets ([github-markdown.css],
    [github-markdown.tmpl]) are not part of the source file.  They are the
    fields of an environment.  A function that returns [(value, error)] in
    Go is a sum here: [inl value] or [inr message]. *)
Record Env := mkEnv {
  (** package [time]: [time.Parse(layout, value)] and [Time.Format(layout)];
      [time.Parse] returns the zero [Time] together with every error *)
  Time : Type;
  zeroTime : Time;
  time_Parse : bytes → bytes → Time + bytes;
  time_Format : Time → bytes → bytes;
  (** package [html/template]: [Parse] on the template ["base"] with
      [funcs] bound, and [Execute] on the data model
      [{"Page": page, "Pages": pages}] *)
  Template : Type;
  template_Parse : bytes → Template + bytes;
  template_Execute : Template → Page → Pages → bytes + bytes;
  (** goldmark: [md.Convert] *)
  md_Convert : bytes → bytes + bytes;
  (** package [path/filepath] *)
  filepath_Rel : bytes → bytes → bytes + bytes;
  filepath_Join : bytes → bytes → bytes;
  (** [//go:embed github-markdown.css] and [//go:embed github-markdown.tmpl] *)
  defaultCSS : bytes;
  defaultHTML : bytes;
  (** the file mode creation mask of the process *)
  umask : Z;
  (** what the operating system makes of [os.WriteFile(name, data, _)] on
      a given disk, for a [name] that is not a directory: this depends on
      the user, on the permissions of the file and of its directory and on
      the medium, none of which the flat view of the disk holds *)
  write_fault : Disk → bytes → bytes → fault;
  (** [filepath.WalkDir(root, fn)] for a callback [fn] that returns [nil]
      on every call, as the one of [main] does: the calls it makes, in
      order, each with its [path] and [err] arguments.  [WalkDir] calls
      [fn] once for every file and directory it reaches, with [err = nil];
      it calls [fn] a second time, with the error, for a directory that
      cannot be listed; and when the root cannot be stat'ed it makes a
      single call, with the error. *)
  walk : bytes → list (bytes * option bytes);
}.

(** Owner permission bits [0400] and [0200]. *)
Definition owner_readable (mode : Z) : bool := Z.testbit mode 8.
Definition owner_writable (mode : Z) : bool := Z.testbit mode 7.

(** [os.ReadFile]. *)
Definition os_ReadFile (d : Disk) (name : bytes) : bytes + bytes :=
  match d !! name with
  | Some (File data mode) =>
    if owner_readable mode then inl data
    else inr (str "open " ++ name ++ str ": permission denied")
  | Some Dir => inr (str "read " ++ name ++ str ": is a directory")
  | None => inr (str "open " ++ name ++ str ": no such file or directory")
  end.

(** [os.WriteFile(name, data, perm)]: "If the file does not exist,
    WriteFile creates it with permissions perm (before umask); otherwise
    WriteFile truncates it before writing, without changing permissions."
    A directory cannot be opened for writing.  The result is the new disk
    and the error, if any. *)
Definition os_WriteFile (env : Env) (d : Disk) (name data : bytes) (perm : Z)
  : Disk * option bytes :=
  match d !! name with
  | Some Dir => (d, Some (str "open " ++ name ++ str ": is a directory"))
  | target =>
    let mode := match target with
                | Some (File _ mode) => mode
                | _ => Z.ldiff perm (umask env)
                end in
    match write_fault env d name data with
    | NoFault => (<[name := File data mode]> d, None)
    | OpenFails err => (d, Some err)
    | WriteFails written err =>
      (<[name := File (take written data) mode]> d, Some err)
    end
  end.

(** ** The state of a run and its monad

    A run threads the disk and the log (the lines written by package
    [log], oldest first).  [log.Fatal] writes a line and exits with
    status 1; a run-time panic exits with status 2. *)
Record State := mkState {
  disk : Disk;
  log : list bytes;
}.

Inductive outcome (A : Type) :=
| Return (a : A) (s : State)
| Exit (code : Z) (s : State).
Arguments Return {A} a s.
Arguments Exit {A} code s.

Definition M (A : Type) : Type := State → outcome A.

Definition ret {A} (a : A) : M A := λ s, Return a s.

Definition bind {A B} (m : M A) (k : A → M B) : M B :=
  λ s, match m s with
       | Return a s' => k a s'
       | Exit code s' => Exit code s'
       end.

Notation "x ←← m ;; k" := (bind m (λ x, k))
  (at level 100, m at level 99, k at level 200, right associativity,
   format "'[v' x  ←←  m  ;;  '/' k ']'").
Notation "m ;;; k" := (bind m (λ _, k))
  (at level 100, k at level 200, right associativity,
   format "'[v' m  ;;;  '/' k ']'").

Definition get_disk : M Disk := λ s, Return (disk s) s.

Definition put_disk (d : Disk) : M unit :=
  λ s, Return tt {| disk := d; log := log s |}.

(** [log.Println(v...)]: the operands separated by spaces, one line. *)
Definition log_Println (line : bytes) : M unit :=
  λ s, Return tt {| disk := disk s; log := log s ++ [line] |}.

(** [log.Fatal(v...)]: [log.Print] followed by [os.Exit(1)]. *)
Definition log_Fatal {A} (line : bytes) : M A :=
  λ s, Exit 1 {| disk := disk s; log := log s ++ [line] |}.

(** A run-time panic. *)
Definition panic {A} : M A := λ s, Exit 2 s.

(** [for _, x := range l { f x }] *)
Fixpoint forM {A} (l : list A) (f : A → M unit) : M unit :=
  match l with
  | [] => ret tt
  | x :: l' => f x ;;; forM l' f
  end.

(** ** [dateFormats] and [funcs] (marc.go, lines 34-54) *)

Definition dateFormats : gmap bytes bytes :=
  <[str "rfc822" := str "02 Jan 06 15:04 MST"]>
  (<[str "yyyy-mm-dd" := str "2006-01-02"]>
  (<[str "shortdate" := str "02 Jan 2006"]> ∅)).

(** [funcs["dateformat"]]: the pair [(string, error)] it returns. *)
Definition dateformat (env : Env) (src dst input : bytes) : bytes * option bytes :=
  match dateFormats !! src with
  | None => ([], Some (str "unknown date format: " ++ src))
  | Some srcfmt =>
    match dateFormats !! dst with
    | None => ([], Some (str "unknown date format: " ++ dst))
    | Some dstfmt =>
      let t := match time_Parse env srcfmt input with
               | inl t => t
               | inr _ => zeroTime env
               end in
      (time_Format env t dstfmt, None)
    end
  end.

(** ** [readPage] (marc.go, lines 87-109) *)

Definition readPage (env : Env) (abspath siteDir : bytes) : M Page :=
  d ←← get_disk ;;
  match os_ReadFile d abspath with
  | inr err => log_Fatal (str "failed to read page:" ++ err)
  | inl text =>
    match readMeta text with
    | None => panic
    | Some (meta, text) =>
      match filepath_Rel env siteDir abspath with
      | inr err => log_Fatal (str "failed to get page extension:" ++ err)
      | inl relpath =>
        ret {| Meta := meta;
               Url := url_of relpath;
               AbsPath := abspath;
               RelPath := relpath;
               Text := text;
               HTML := [] |}
      end
    end
  end.

(** ** [readTmpl] (marc.go, lines 117-127) *)

Definition default_text (env : Env) : bytes :=
  Replace (defaultHTML env) (str "STYLE_PLACEHOLDER") (defaultCSS env) 1.

(** [template.Must] panics when the parse failed. *)
Definition readTmpl (env : Env) (siteDir : bytes) : M (Template env) :=
  let tmplPath := filepath_Join env siteDir (str "base.tmpl") in
  let default : M (Template env) :=
    match template_Parse env (default_text env) with
    | inl tmpl => ret tmpl
    | inr _ => panic
    end in
  d ←← get_disk ;;
  match os_ReadFile d tmplPath with
  | inl tmplText =>
    match template_Parse env tmplText with
    | inl tmpl => ret tmpl
    | inr _ => default
    end
  | inr _ => default
  end.

(** ** [main] (marc.go, lines 129-190) *)

(** The callback given to [filepath.WalkDir] (lines 140-147), on the
    pages collected so far; it ignores [err] and always returns [nil]. *)
Definition walkFn (env : Env) (siteDir : bytes) (pages : Pages)
    (path : bytes) (err : option bytes) : M Pages :=
  if negb (Equal (filepath.Ext path) (str ".md")) then ret pages
  else
    page ←← readPage env path siteDir ;;
    ret (pages ++ [page]).

(** [filepath.WalkDir(siteDir, ...)] with that callback; [main] drops the
    error that [WalkDir] returns. *)
Fixpoint discover_from (env : Env) (siteDir : bytes)
    (visits : list (bytes * option bytes)) (pages : Pages) : M Pages :=
  match visits with
  | [] => ret pages
  | (path, err) :: visits' =>
    pages' ←← walkFn env siteDir pages path err ;;
    discover_from env siteDir visits' pages'
  end.

Definition discover (env : Env) (siteDir : bytes) : M Pages :=
  discover_from env siteDir (walk env siteDir) [].

(** [page.HTML = template.HTML(body)], on the loop's copy of the page. *)
Definition set_HTML (page : Page) (body : bytes) : Page :=
  {| Meta := Meta page; Text := Text page; Url := Url page; HTML := body;
     AbsPath := AbsPath page; RelPath := RelPath page |}.

(** The file mode [0600] that [main] passes to [os.WriteFile]. *)
Definition mode_0600 : Z := 0x180.

(** The body of the render loop (lines 161-188). *)
Definition render_page (env : Env) (baseTmpl : Template env) (pages : Pages)
    (page : Page) : M unit :=
  let outPath := outPath_of (AbsPath page) in
  log_Println (str "* " ++ outPath) ;;;
  match md_Convert env (Text page) with
  | inr err => log_Fatal (str "failed to convert markdown:" ++ err)
  | inl body =>
    let page := set_HTML page body in
    match template_Execute env baseTmpl page pages with
    | inr err => log_Fatal (str "failed to render page:" ++ err)
    | inl body =>
      d ←← get_disk ;;
      let '(d', err) := os_WriteFile env d outPath body mode_0600 in
      put_disk d' ;;;
      match err with
      | Some err => log_Fatal (str "failed to write file:" ++ err)
      | None => ret tt
      end
    end
  end.

Definition render_all (env : Env) (baseTmpl : Template env) (pages : Pages) : M unit :=
  forM pages (render_page env baseTmpl pages).

(** [main], given [os.Args]. *)
Definition main (env : Env) (args : list bytes) : M unit :=
  if negb (length args =? 2)%nat then
    match args with
    | [] => panic
    | arg0 :: _ => log_Fatal (str "usage: " ++ arg0 ++ str " /path/to/site")
    end
  else
    match args !! 1%nat with
    | None => panic
    | Some siteDir =>
      baseTmpl ←← readTmpl env siteDir ;;
      pages ←← discover env siteDir ;;
      match Stable pages with
      | None => panic
      | Some pages => render_all env baseTmpl pages
      end
    end.

(** ** Predicates used in the statements *)

(** [sep] occurs in [s] at offset [length x], and nowhere before. *)
Definition first_at (s sep x y : bytes) : Prop :=
  s = x ++ sep ++ y ∧ ∀ x' y', s = x' ++ sep ++ y' → (length x ≤ length x')%nat.

(** Bytes with neither a dot nor a path separator among them. *)
Definition plain (e : bytes) : Prop :=
  ∀ c, c ∈ e → c ≠ "."%char ∧ c ≠ "/"%char.

(** The sort keys descend along the list. *)
Definition descending (l : Pages) : Prop :=
  ∀ i j pi pj, (i < j)%nat → l !! i = Some pi → l !! j = Some pj →
    Compare (sortKey pj) (sortKey pi) <= 0.

(** [out] holds the pages of [l], those of each key in their order in
    [l]. *)
Definition stable_wrt (l out : Pages) : Prop :=
  ∀ k, filter (λ p, sortKey p = k) out = filter (λ p, sortKey p = k) l.

(** A mode without any group or world permission bit ([mode & 0077 = 0]). *)
Definition owner_only (mode : Z) : Prop := Z.land mode 0x3F = 0.

(** Some line of the log mentions the text [t]. *)
Definition log_mentions (s : State) (t : bytes) : Prop :=
  ∃ line, line ∈ log s ∧ 0 <= Index line t.

(** The walk reported an error on some path. *)
Definition walk_reports_error (env : Env) (siteDir : bytes) : Prop :=
  ∃ path e, (path, Some e) ∈ walk env siteDir.

(** An ASCII byte that is white space, and one that is not. *)
Definition ascii_space (c : ascii) : Prop :=
  byte_val c < utf8.RuneSelf ∧ unicode.IsSpace (byte_val c) = true.

Definition ascii_nonspace (c : ascii) : Prop :=
  byte_val c < utf8.RuneSelf ∧ unicode.IsSpace (byte_val c) = false.

(** ** A small concrete environment, for worked examples

    Conversion wraps the body in a paragraph and does not fail; rendering
    appends the HTML fragment to the layout, and fails when the layout
    calls [dateformat] with the unknown format name [iso]; a template
    parses unless it opens an action and never closes it; paths are
    joined with a slash; the walk is whatever [visits] says; the process
    is not root and every directory is writable, so that a write fails
    only on a file that its owner may not write. *)
Definition ex_env (visits : list (bytes * option bytes)) : Env := {|
  Time := bytes;
  zeroTime := str "0001-01-01 00:00:00 +0000 UTC";
  time_Parse := λ layout value,
    if (length value =? length layout)%nat then inl value
    else inr (str "parsing time: cannot parse " ++ value ++ str " as " ++ layout);
  time_Format := λ t layout, t ++ str " in " ++ layout;
  Template := bytes;
  template_Parse := λ text,
    if (Index text (str "{{") <? 0) || (0 <=? Index text (str "}}")) then inl text
    else inr (str "template: base:1: unclosed action");
  template_Execute := λ t page pages,
    if 0 <=? Index t (str "{{dateformat iso ")
    then inr (str "template: base:1:2: executing base at <dateformat iso>: "
              ++ str "error calling dateformat: unknown date format: iso")
    else inl (t ++ HTML page);
  md_Convert := λ body, inl (str "<p>" ++ body ++ str "</p>");
  filepath_Rel := λ base targ,
    if HasPrefix targ (base ++ str "/") then inl (drop (length base + 1) targ)
    else inr (str "Rel: can't make " ++ targ ++ str " relative to " ++ base);
  filepath_Join := λ a b, a ++ str "/" ++ b;
  defaultCSS := str ".markdown-body{margin:0}";
  defaultHTML := str "<style>STYLE_PLACEHOLDER</style>{{.Page.HTML}}";
  umask := 0x12;
  write_fault := λ d name data,
    match d !! name with
    | Some (File _ mode) =>
      if owner_writable mode then NoFault
      else OpenFails (str "open " ++ name ++ str ": permission denied")
    | _ => NoFault
    end;
  walk := λ _, visits;
|}.

(** A site [/s] with two pages, an index page in a subdirectory, and an
    output file left by an earlier run with mode [0644]. *)
Definition ex_disk : Disk :=
  list_to_map [
    (str "/s", Dir);
    (str "/s/a.md",
       File (str "---" ++ newline ++ str "date: 2023-01-02" ++ newline
             ++ str "---" ++ newline ++ str "first") 0x1A4);
    (str "/s/a.html", File (str "stale") 0x1A4);
    (str "/s/b.md",
       File (str "---" ++ newline ++ str "date: 2024-05-01" ++ newline
             ++ str "---" ++ newline ++ str "second") 0x1A4);
    (str "/s/blog", Dir);
    (str "/s/blog/index.md", File (str "no preamble") 0x1A4)
  ].

Definition ex_walk : list (bytes * option bytes) := [
  (str "/s", None);
  (str "/s/a.html", None);
  (str "/s/a.md", None);
  (str "/s/b.md", None);
  (str "/s/blog", None);
  (str "/s/blog/index.md", None)
].

Definition ex_state : State := {| disk := ex_disk; log := [] |}.

(** A page as [readPage] would build it from a source path and a body. *)
Definition ex_page (abspath text : string) : Page :=
  {| Meta := nil_map; Text := str text; Url := []; HTML := [];
     AbsPath := str abspath; RelPath := [] |}.

(** The layout that [readTmpl] returns in [ex_env] when there is no
    [base.tmpl]. *)
Definition ex_layout : bytes :=
  str "<style>.markdown-body{margin:0}</style>{{.Page.HTML}}".

(** The walk of a site root that does not exist: one call, with the
    error of [os.Lstat]. *)
Definition ex_walk_missing : list (bytes * option bytes) :=
  [(str "/none", Some (str "lstat /none: no such file or directory"))].

Definition empty_state : State := {| disk := ∅; log := [] |}.

(** The site [ex_disk] with a directory in the place of [/s/a.html]. *)
Definition ex_disk_dir : Disk := <[str "/s/a.html" := Dir]> ex_disk.

Definition ex_state_dir : State := {| disk := ex_disk_dir; log := [] |}.

(** ** Further notions used in the statements *)

(** The state in which a computation ends, whatever its outcome. *)
Definition final_state {A} (o : outcome A) : State :=
  match o with
  | Return _ s => s
  | Exit _ s => s
  end.

(** [sep] does not occur in [s]. *)
Definition has_no (sep s : bytes) : Prop := Index s sep = -1.

(** A text that is empty, or whose first and last bytes are ASCII bytes
    other than white space. *)
Definition nonspaceb (c : ascii) : bool :=
  (byte_val c <? utf8.RuneSelf) && negb (unicode.IsSpace (byte_val c)).

Definition trimmed (s : bytes) : Prop :=
  match head s, last s with
  | Some a, Some b => nonspaceb a && nonspaceb b = true
  | _, _ => True
  end.

(** A key/value pair that can be written on one preamble line: no colon
    in the key, no newline and no [---] in either, both trimmed. *)
Definition wf_entry (kv : bytes * bytes) : Prop :=
  has_no colon kv.1 ∧ has_no newline kv.1 ∧ has_no delim kv.1 ∧ trimmed kv.1
  ∧ has_no newline kv.2 ∧ has_no delim kv.2 ∧ trimmed kv.2.

(** A preamble line [key: value] with its newline, and a document with
    the preamble of the given pairs. *)
Definition entry_line (kv : bytes * bytes) : bytes :=
  kv.1 ++ str ": " ++ kv.2 ++ newline.

Definition front_matter (kvs : list (bytes * bytes)) (rest : bytes) : bytes :=
  delim ++ newline ++ concat (map entry_line kvs) ++ delim ++ rest.
(** ** Worked examples *)

Example readMeta_ex1 :
  readMeta (str "---" ++ newline ++ str "title: Hello" ++ newline
            ++ str "date : 2024-05-01" ++ newline ++ str "junk line" ++ newline
            ++ str "title:  World: two" ++ newline ++ str "---" ++ newline
            ++ str "body text")
  = Some (Some (<[str "date" := str "2024-05-01"]>
                  (<[str "title" := str "World: two"]> ∅)),
          newline ++ str "body text").
Proof. vm_compute. reflexivity. Qed.

(** The site [ex_disk]: [b.md] is dated after [a.md] and is rendered
    first, the page without a date last; [a.html] existed and is
    overwritten, the other two outputs are created. *)
Example main_ex :
  ∃ s', main (ex_env ex_walk) [str "marc"; str "/s"] ex_state = Return tt s'
        ∧ log s' = [str "* /s/b.html"; str "* /s/a.html"; str "* /s/blog/index.html"]
        ∧ disk s' !! str "/s/blog/index.html"
          = Some (File (ex_layout ++ str "<p>no preamble</p>") mode_0600).
Proof.
  eexists. split; [vm_compute; reflexivity|].
  split; vm_compute; reflexivity.
Qed.

Example TrimSpace_ex :
  TrimSpace (str "  2024-05-01" ++ [ascii_of_nat 13]) = str "2024-05-01"
  ∧ TrimSpace (map ascii_of_nat [194; 160; 32; 65; 226; 128; 131; 32]%nat)
    = [ascii_of_nat 65].
Proof. split; vm_compute; reflexivity. Qed.
(** ** Facts about slicing and searching *)

Lemma len_app {A} (x y : list A) : len (x ++ y) = len x + len y.
Proof. unfold len. rewrite length_app. lia. Qed.

Lemma len_nonneg {A} (x : list A) : 0 <= len x.
Proof. unfold len. lia. Qed.

Lemma slice_in_range {A} (s : list A) lo hi :
  0 <= lo <= hi → hi <= len s →
  slice s lo hi = Some (take (Z.to_nat (hi - lo)) (drop (Z.to_nat lo) s)).
Proof.
  intros H1 H2. unfold slice.
  destruct ((0 <=? lo) && (lo <=? hi) && (hi <=? len s)) eqn:E; [reflexivity|].
  rewrite !andb_false_iff, !Z.leb_gt in E. lia.
Qed.

Lemma slice_middle {A} (x y z : list A) :
  slice (x ++ y ++ z) (len x) (len x + len y) = Some y.
Proof.
  pose proof (len_nonneg x). pose proof (len_nonneg y). pose proof (len_nonneg z).
  rewrite slice_in_range by (rewrite ?len_app; lia).
  f_equal. unfold len.
  replace (Z.to_nat (Z.of_nat (length x) + Z.of_nat (length y) - Z.of_nat (length x)))
    with (length y) by lia.
  rewrite Nat2Z.id, drop_app_length, take_app_length. reflexivity.
Qed.

Lemma slice_to_app {A} (y z : list A) n : n = len y → slice_to (y ++ z) n = Some y.
Proof. intros ->. apply (slice_middle [] y z). Qed.

Lemma slice_from_app {A} (x y : list A) n : n = len x → slice_from (x ++ y) n = Some y.
Proof.
  intros ->. unfold slice_from. rewrite len_app.
  pose proof (slice_middle x y []) as H. rewrite app_nil_r in H. exact H.
Qed.

Lemma slice_from_total {A} (s : list A) n : 0 <= n <= len s → is_Some (slice_from s n).
Proof. intros H. unfold slice_from. rewrite slice_in_range by lia. eauto. Qed.

Lemma HasPrefix_true s p : HasPrefix s p = true ↔ ∃ y, s = p ++ y.
Proof. unfold HasPrefix. rewrite bool_decide_eq_true. reflexivity. Qed.

Lemma Index_from_unfold i s sep :
  Index_from i s sep =
  if HasPrefix s sep then i
  else match s with [] => -1 | _ :: s' => Index_from (i + 1) s' sep end.
Proof. destruct s; reflexivity. Qed.

Lemma Index_from_found i s sep x y :
  first_at s sep x y → Index_from i s sep = i + len x.
Proof.
  revert i s. induction x as [|c x IH]; intros i s [Hs Hmin].
  - rewrite Index_from_unfold.
    replace (HasPrefix s sep) with true; [unfold len; simpl; lia|].
    symmetry. apply HasPrefix_true. eauto.
  - rewrite Index_from_unfold.
    destruct (HasPrefix s sep) eqn:Hp.
    + apply HasPrefix_true in Hp as [y' Hy'].
      specialize (Hmin [] y' Hy'). simpl in Hmin. lia.
    + subst s. simpl. rewrite IH.
      * unfold len. simpl. lia.
      * split; [reflexivity|]. intros x' y' Heq.
        specialize (Hmin (c :: x') y'). simpl in Hmin.
        rewrite Heq in Hmin. specialize (Hmin eq_refl). lia.
Qed.

Lemma Index_from_absent i s sep :
  (∀ x y, s ≠ x ++ sep ++ y) → Index_from i s sep = -1.
Proof.
  revert i. induction s as [|c s IH]; intros i Hno; rewrite Index_from_unfold.
  - destruct (HasPrefix [] sep) eqn:Hp; [|reflexivity].
    apply HasPrefix_true in Hp as [y Hy]. destruct (Hno [] y). exact Hy.
  - destruct (HasPrefix (c :: s) sep) eqn:Hp.
    + apply HasPrefix_true in Hp as [y Hy]. destruct (Hno [] y). exact Hy.
    + apply IH. intros x y ->. apply (Hno (c :: x) y). reflexivity.
Qed.

Lemma Index_from_inv i s sep :
  (Index_from i s sep = -1 ∧ ∀ x y, s ≠ x ++ sep ++ y)
  ∨ (∃ x y, first_at s sep x y ∧ Index_from i s sep = i + len x).
Proof.
  revert i. induction s as [|c s IH]; intros i; rewrite Index_from_unfold.
  - destruct (HasPrefix [] sep) eqn:Hp.
    + right. apply HasPrefix_true in Hp as [y Hy]. exists [], y.
      split; [split; [exact Hy|simpl; lia]| unfold len; simpl; lia].
    + left. split; [reflexivity|]. intros x y Heq.
      destruct x; [|discriminate]. 
      assert (HasPrefix [] sep = true) by (apply HasPrefix_true; eauto). congruence.
  - destruct (HasPrefix (c :: s) sep) eqn:Hp.
    + right. apply HasPrefix_true in Hp as [y Hy]. exists [], y.
      split; [split; [exact Hy|simpl; lia]| unfold len; simpl; lia].
    + destruct (IH (i + 1)) as [[Hm Hno]|(x & y & [Hs Hmin] & Hi)].
      * left. split; [exact Hm|]. intros x y Heq.
        destruct x as [|c' x].
        -- assert (HasPrefix (c :: s) sep = true) by (apply HasPrefix_true; eauto).
           congruence.
        -- simpl in Heq. injection Heq as _ Heq. exact (Hno _ _ Heq).
      * right. exists (c :: x), y. split; [split|].
        -- simpl. congruence.
        -- intros x' y' Heq. destruct x' as [|c' x'].
           ++ assert (HasPrefix (c :: s) sep = true) by (apply HasPrefix_true; eauto).
              congruence.
           ++ simpl in Heq. injection Heq as _ Heq. specialize (Hmin _ _ Heq).
              simpl. lia.
        -- rewrite Hi. unfold len. simpl. lia.
Qed.

Lemma Index_found s sep x y : first_at s sep x y → Index s sep = len x.
Proof. intros H. unfold Index. rewrite (Index_from_found 0 s sep x y H). lia. Qed.

Lemma Index_absent s sep : (∀ x y, s ≠ x ++ sep ++ y) → Index s sep = -1.
Proof. apply Index_from_absent. Qed.

Lemma Index_inv s sep :
  (Index s sep = -1 ∧ ∀ x y, s ≠ x ++ sep ++ y)
  ∨ (∃ x y, first_at s sep x y ∧ Index s sep = len x).
Proof.
  destruct (Index_from_inv 0 s sep) as [?|(x & y & ? & ?)]; [left; assumption|].
  right. exists x, y. split; [assumption|]. unfold Index. lia.
Qed.
(** ** Splitting *)

Lemma Index_from_shift i s sep :
  Index_from i s sep = if Index s sep =? -1 then -1 else i + Index s sep.
Proof.
  destruct (Index_inv s sep) as [[H Hno]|(x & y & Hf & H)]; rewrite H.
  - simpl. apply Index_from_absent, Hno.
  - pose proof (len_nonneg x).
    destruct (len x =? -1) eqn:E; [apply Z.eqb_eq in E; lia|].
    apply Index_from_found with y. exact Hf.
Qed.

Lemma Index_nonneg_or_absent s sep : Index s sep = -1 ∨ 0 <= Index s sep.
Proof.
  destruct (Index_inv s sep) as [[H _]|(x & y & _ & H)]; [left; exact H|].
  right. rewrite H. apply len_nonneg.
Qed.

Lemma HasPrefix_single c s d : HasPrefix (c :: s) [d] = bool_decide (c = d).
Proof.
  unfold HasPrefix. apply bool_decide_ext. split.
  - intros [k Hk]. simpl in Hk. congruence.
  - intros ->. exists s. reflexivity.
Qed.

Lemma Index_single_cons c s d :
  Index (c :: s) [d] =
  if decide (c = d) then 0
  else if Index s [d] =? -1 then -1 else Index s [d] + 1.
Proof.
  unfold Index at 1. rewrite Index_from_unfold, HasPrefix_single.
  destruct (decide (c = d)) as [->|Hne].
  - rewrite bool_decide_eq_true_2 by reflexivity. reflexivity.
  - rewrite bool_decide_eq_false_2 by exact Hne.
    rewrite Index_from_shift. destruct (Index s [d] =? -1); lia.
Qed.

Lemma Index_single_nil d : Index [] [d] = -1.
Proof. reflexivity. Qed.

(** The first line of a text ends at the first newline. *)
Lemma spec_lines_Index s :
  spec_lines s =
  if Index s newline <? 0 then [s]
  else take (Z.to_nat (Index s newline)) s
       :: spec_lines (drop (Z.to_nat (Index s newline) + 1) s).
Proof.
  induction s as [|c s IH]; [reflexivity|].
  unfold newline in *. rewrite Index_single_cons. cbn [spec_lines].
  destruct (decide (c = nl)) as [->|Hne]; [reflexivity|].
  rewrite IH at 1.
  destruct (Index_nonneg_or_absent s [nl]) as [E|E].
  - rewrite E. reflexivity.
  - destruct (Index s [nl] =? -1) eqn:E1; [apply Z.eqb_eq in E1; lia|].
    destruct (Index s [nl] <? 0) eqn:E2; [apply Z.ltb_lt in E2; lia|].
    destruct (Index s [nl] + 1 <? 0) eqn:E3; [apply Z.ltb_lt in E3; lia|].
    replace (Z.to_nat (Index s [nl] + 1)) with (S (Z.to_nat (Index s [nl]))) by lia.
    reflexivity.
Qed.

Lemma split_loop_lines n s :
  (length s ≤ n)%nat → split_loop n s newline = spec_lines s.
Proof.
  revert s. induction n as [|n IH]; intros s Hn.
  - destruct s; [reflexivity|simpl in Hn; lia].
  - cbn [split_loop]. rewrite spec_lines_Index.
    destruct (Index s newline <? 0) eqn:E; [reflexivity|].
    f_equal. apply IH. rewrite length_drop. simpl. 
    destruct s; simpl in *; lia.
Qed.

(** [strings.Split] on ["\n"] yields the lines. *)
Lemma Split_lines s : Split s newline = spec_lines s.
Proof. apply split_loop_lines. lia. Qed.

Lemma spec_cut_Index line :
  match spec_cut line with
  | None => Index line colon = -1
  | Some (k, v) => Index line colon = len k ∧ line = k ++ colon ++ v
  end.
Proof.
  induction line as [|c l IH]; [reflexivity|].
  unfold colon, str in *. cbn [String.list_ascii_of_string] in *.
  rewrite Index_single_cons. cbn [spec_cut].
  destruct (decide (c = ":"%char)) as [->|Hne].
  - split; reflexivity.
  - destruct (spec_cut l) as [[k v]|]; simpl.
    + destruct IH as [IH1 IH2]. rewrite IH1. pose proof (len_nonneg k).
      destruct (len k =? -1) eqn:E; [apply Z.eqb_eq in E; lia|].
      split; [unfold len; simpl; lia|]. rewrite IH2. reflexivity.
    + rewrite IH. reflexivity.
Qed.

(** [strings.SplitN(line, ":", 2)] cuts at the first colon, if any. *)
Lemma SplitN_colon line :
  SplitN line colon 2 =
  match spec_cut line with
  | Some (k, v) => [k; v]
  | None => [line]
  end.
Proof.
  pose proof (spec_cut_Index line) as H. unfold SplitN.
  destruct line as [|c l].
  - reflexivity.
  - replace (Nat.min 2 (length (c :: l) + 1) - 1)%nat with 1%nat by (cbn [length]; lia).
    cbn [split_loop].
    destruct (spec_cut (c :: l)) as [[k v]|].
    + destruct H as [H1 H2]. rewrite H1. pose proof (len_nonneg k).
      destruct (len k <? 0) eqn:E; [apply Z.ltb_lt in E; lia|].
      unfold len. rewrite Nat2Z.id. rewrite H2.
      rewrite take_app_length. rewrite drop_app_add'; [|reflexivity].
      reflexivity.
    + rewrite H. reflexivity.
Qed.

Lemma readMeta_line_entry meta line :
  readMeta_line meta line =
  match spec_entry line with
  | Some (k, v) => <[k := v]> meta
  | None => meta
  end.
Proof.
  unfold readMeta_line, spec_entry. rewrite SplitN_colon.
  destruct (spec_cut line) as [[k v]|]; reflexivity.
Qed.

Lemma foldl_readMeta_line meta ls :
  foldl readMeta_line meta ls
  = foldl (λ m kv, <[kv.1 := kv.2]> m) meta (omap spec_entry ls).
Proof.
  revert meta. induction ls as [|l ls IH]; intros meta; [reflexivity|].
  cbn [foldl]. rewrite IH, readMeta_line_entry. simpl.
  destruct (spec_entry l) as [[k v]|]; reflexivity.
Qed.

Lemma foldl_insert_list_to_map (m : gmap bytes bytes) es :
  foldl (λ m kv, <[kv.1 := kv.2]> m) m es = list_to_map (reverse es) ∪ m.
Proof.
  revert m. induction es as [|[k v] es IH]; intros m.
  - simpl. rewrite (left_id_L ∅ (∪)). reflexivity.
  - cbn [foldl]. rewrite IH, reverse_cons, list_to_map_app. simpl.
    rewrite <- (assoc_L (∪)). f_equal.
    rewrite insert_union_singleton_l. f_equal. 
Qed.

(** The loop of [readMeta] computes the metadata of the specification. *)
Lemma readMeta_loop pre :
  foldl readMeta_line ∅ (Split pre newline) = spec_meta pre.
Proof.
  rewrite Split_lines, foldl_readMeta_line, foldl_insert_list_to_map.
  rewrite (right_id_L ∅ (∪)). reflexivity.
Qed.

(** A later pair overwrites every earlier pair with the same key. *)
Lemma list_to_map_reverse_last (es1 es2 : list (bytes * bytes)) k v :
  k ∉ es2.*1 →
  (list_to_map (reverse (es1 ++ (k, v) :: es2)) : gmap bytes bytes) !! k = Some v.
Proof.
  intros Hk. rewrite reverse_app, reverse_cons, <- app_assoc, list_to_map_app.
  apply lookup_union_Some_raw. right. split.
  - apply not_elem_of_list_to_map. rewrite fmap_reverse, elem_of_reverse. exact Hk.
  - simpl. apply lookup_insert_eq.
Qed.

Lemma list_to_map_reverse_none (es : list (bytes * bytes)) k :
  k ∉ es.*1 → (list_to_map (reverse es) : gmap bytes bytes) !! k = None.
Proof.
  intros Hk. apply not_elem_of_list_to_map. rewrite fmap_reverse, elem_of_reverse.
  exact Hk.
Qed.
(** ** [strings.TrimSpace] on ASCII white space *)

Lemma DecodeRune_ascii c t :
  byte_val c < utf8.RuneSelf → utf8.DecodeRune (c :: t) = (byte_val c, 1%nat).
Proof.
  intros H. unfold utf8.DecodeRune.
  destruct (Z.ltb_spec (byte_val c) utf8.RuneSelf); [reflexivity|lia].
Qed.

Lemma DecodeLastRune_ascii s c :
  byte_val c < utf8.RuneSelf → utf8.DecodeLastRune (s ++ [c]) = (byte_val c, 1%nat).
Proof.
  intros H. unfold utf8.DecodeLastRune.
  assert (len (s ++ [c]) = len s + 1) as -> by (rewrite len_app; reflexivity).
  pose proof (len_nonneg s).
  destruct (Z.eqb_spec (len s + 1) 0); [lia|].
  replace (Z.to_nat (len s + 1 - 1)) with (length s) by (unfold len; lia).
  rewrite list_lookup_middle by reflexivity. cbn [from_option].
  destruct (Z.ltb_spec (byte_val c) utf8.RuneSelf); [reflexivity|lia].
Qed.

Lemma indexFunc_from_spaces fuel i ws c t :
  Forall ascii_space ws → ascii_nonspace c → (length ws < fuel)%nat →
  indexFunc_from fuel i (ws ++ c :: t) unicode.IsSpace false = i + len ws.
Proof.
  intros Hws [Hc1 Hc2]. revert fuel i.
  induction Hws as [|w ws [Hw1 Hw2] Hws IH]; intros fuel i Hf.
  - destruct fuel as [|fuel]; [simpl in Hf; lia|].
    cbn [app indexFunc_from]. rewrite DecodeRune_ascii by exact Hc1.
    rewrite Hc2. cbn [Bool.eqb]. unfold len. simpl. lia.
  - destruct fuel as [|fuel]; [simpl in Hf; lia|].
    cbn [app indexFunc_from]. rewrite DecodeRune_ascii by exact Hw1.
    rewrite Hw2. cbn [Bool.eqb drop]. rewrite drop_0, IH by (simpl in Hf; lia).
    unfold len. cbn [length]. lia.
Qed.

Lemma indexFunc_from_all_spaces fuel i ws :
  Forall ascii_space ws →
  indexFunc_from fuel i ws unicode.IsSpace false = -1.
Proof.
  intros Hws. revert fuel i.
  induction Hws as [|w ws [Hw1 Hw2] Hws IH]; intros fuel i.
  - destruct fuel; reflexivity.
  - destruct fuel as [|fuel]; [reflexivity|].
    cbn [indexFunc_from]. rewrite DecodeRune_ascii by exact Hw1.
    rewrite Hw2. cbn [Bool.eqb drop]. rewrite drop_0. apply IH.
Qed.

Lemma lastIndexFunc_fuel_spaces fuel h c ws :
  Forall ascii_space ws → ascii_nonspace c → (length ws < fuel)%nat →
  lastIndexFunc_fuel fuel (h ++ c :: ws) unicode.IsSpace false = len h.
Proof.
  intros Hws [Hc1 Hc2]. revert fuel.
  induction ws as [|w ws IH] using rev_ind; intros fuel Hf.
  - destruct fuel as [|fuel]; [simpl in Hf; lia|].
    cbn [lastIndexFunc_fuel].
    destruct (h ++ [c]) as [|a l] eqn:E; [destruct h; discriminate|].
    rewrite <- E. rewrite DecodeLastRune_ascii by exact Hc1.
    rewrite Hc2. cbn [Bool.eqb]. rewrite length_app. unfold len. simpl. lia.
  - apply Forall_app in Hws as [Hws Hw]. apply Forall_singleton in Hw as [Hw1 Hw2].
    rewrite length_app in Hf. simpl in Hf.
    destruct fuel as [|fuel]; [lia|].
    cbn [lastIndexFunc_fuel].
    replace (h ++ c :: ws ++ [w]) with ((h ++ c :: ws) ++ [w])
      by (rewrite <- app_assoc; reflexivity).
    destruct ((h ++ c :: ws) ++ [w]) as [|a l] eqn:E;
      [destruct (h ++ c :: ws); discriminate|].
    rewrite <- E. rewrite DecodeLastRune_ascii by exact Hw1.
    rewrite Hw2. cbn [Bool.eqb]. rewrite length_app. cbn [length].
    replace (length (h ++ c :: ws) + 1 - 1)%nat with (length (h ++ c :: ws)) by lia.
    rewrite take_app_length. apply IH; [exact Hws|lia].
Qed.

(** White space made of ASCII bytes around a text that begins and ends
    with ASCII bytes that are not white space is removed, and nothing
    else. *)
Lemma TrimSpace_ascii ws1 ws2 core c1 t c2 h :
  Forall ascii_space ws1 → Forall ascii_space ws2 →
  core = c1 :: t → core = h ++ [c2] →
  ascii_nonspace c1 → ascii_nonspace c2 →
  TrimSpace (ws1 ++ core ++ ws2) = core.
Proof.
  intros H1 H2 E1 E2 Hc1 Hc2. unfold TrimSpace, TrimFunc.
  assert (TrimLeftFunc (ws1 ++ core ++ ws2) unicode.IsSpace = core ++ ws2) as ->.
  { unfold TrimLeftFunc, indexFunc. rewrite E1. cbn [app].
    rewrite indexFunc_from_spaces; [|assumption..|rewrite length_app; simpl; lia].
    pose proof (len_nonneg ws1).
    destruct (Z.eqb_spec (0 + len ws1) (-1)); [lia|].
    unfold len. replace (Z.to_nat (0 + Z.of_nat (length ws1))) with (length ws1) by lia.
    apply drop_app_length. }
  unfold TrimRightFunc, lastIndexFunc. rewrite E2, <- app_assoc. cbn [app].
  rewrite lastIndexFunc_fuel_spaces; [|assumption..|rewrite length_app; simpl; lia].
  pose proof (len_nonneg h). destruct Hc2 as [Hlt _].
  unfold len. rewrite Nat2Z.id, list_lookup_middle by reflexivity. cbn [from_option].
  destruct (Z.leb_spec 0 (Z.of_nat (length h))); [|lia].
  destruct (Z.leb_spec utf8.RuneSelf (byte_val c2)); [lia|]. cbn [andb].
  replace (Z.to_nat (Z.of_nat (length h) + 1)) with (length (h ++ [c2]))
    by (rewrite length_app; simpl; lia).
  replace (h ++ c2 :: ws2) with ((h ++ [c2]) ++ ws2) by (rewrite <- app_assoc; reflexivity).
  apply take_app_length.
Qed.

(** A text of ASCII white space alone trims to nothing. *)
Lemma TrimSpace_blank ws : Forall ascii_space ws → TrimSpace ws = [].
Proof.
  intros H. unfold TrimSpace, TrimFunc, TrimLeftFunc, indexFunc.
  rewrite indexFunc_from_all_spaces by exact H. reflexivity.
Qed.

Lemma nonspaceb_true c : nonspaceb c = true → ascii_nonspace c.
Proof.
  unfold nonspaceb, ascii_nonspace. rewrite andb_true_iff, negb_true_iff, Z.ltb_lt.
  tauto.
Qed.

(** ASCII white space on both sides of a trimmed text is removed, and
    nothing else. *)
Lemma TrimSpace_padded ws1 s ws2 :
  Forall ascii_space ws1 → Forall ascii_space ws2 → trimmed s →
  TrimSpace (ws1 ++ s ++ ws2) = s.
Proof.
  intros H1 H2 Hs. unfold trimmed in Hs.
  destruct s as [|c1 t] eqn:E.
  - apply TrimSpace_blank, Forall_app. auto.
  - rewrite <- E in *. assert (head s = Some c1) as Hh by (rewrite E; reflexivity).
    rewrite Hh in Hs. destruct (last s) as [c2|] eqn:Hl.
    + apply last_Some in Hl as [h Hl]. apply andb_true_iff in Hs as [Ha Hb].
      apply (TrimSpace_ascii ws1 ws2 s c1 t c2 h);
        [exact H1|exact H2|exact E|exact Hl|
         apply nonspaceb_true, Ha|apply nonspaceb_true, Hb].
    + rewrite E in Hl. rewrite last_cons in Hl. destruct (last t); discriminate.
Qed.

Lemma ascii_space_not_colon c : ascii_space c → c ≠ ":"%char.
Proof. intros [_ H] ->. vm_compute in H. discriminate. Qed.

Lemma spec_cut_colon k rest :
  ":"%char ∉ k → spec_cut (k ++ ":"%char :: rest) = Some (k, rest).
Proof.
  induction k as [|c k IH]; intros Hk.
  - cbn [app spec_cut]. rewrite decide_True by reflexivity. reflexivity.
  - cbn [app spec_cut]. rewrite decide_False by (intros ->; apply Hk; left).
    rewrite IH by (intros Hin; apply Hk; right; exact Hin). reflexivity.
Qed.

(** A line [key : value] with ASCII white space around the key and
    around the value gives the pair of the bare key and the bare value. *)
Lemma spec_entry_padded ws1 k ws2 ws3 v ws4 :
  Forall ascii_space ws1 → Forall ascii_space ws2 →
  Forall ascii_space ws3 → Forall ascii_space ws4 →
  trimmed k → trimmed v → (":"%char ∉ k) →
  spec_entry (ws1 ++ k ++ ws2 ++ colon ++ ws3 ++ v ++ ws4) = Some (k, v).
Proof.
  intros H1 H2 H3 H4 Hk Hv Hc. unfold spec_entry, colon, str.
  cbn [String.list_ascii_of_string].
  replace (ws1 ++ k ++ ws2 ++ [":"%char] ++ ws3 ++ v ++ ws4)
    with ((ws1 ++ k ++ ws2) ++ ":"%char :: (ws3 ++ v ++ ws4))
    by (rewrite <- !app_assoc; reflexivity).
  rewrite spec_cut_colon.
  - cbn. rewrite !TrimSpace_padded by assumption. reflexivity.
  - intros Hin. apply elem_of_app in Hin as [Hin|Hin].
    + rewrite Forall_forall in H1. exact (ascii_space_not_colon _ (H1 _ Hin) eq_refl).
    + apply elem_of_app in Hin as [Hin|Hin]; [contradiction|].
      rewrite Forall_forall in H2. exact (ascii_space_not_colon _ (H2 _ Hin) eq_refl).
Qed.
(** ** [readMeta] *)

Lemma slice_from_drop {A} (s : list A) n :
  0 <= n <= len s → slice_from s n = Some (drop (Z.to_nat n) s).
Proof.
  intros H. unfold slice_from. rewrite slice_in_range by lia. f_equal.
  apply take_ge. rewrite length_drop. unfold len in *. lia.
Qed.

Lemma slice_to_take {A} (s : list A) n :
  0 <= n <= len s → slice_to s n = Some (take (Z.to_nat n) s).
Proof.
  intros H. unfold slice_to. rewrite slice_in_range by lia. f_equal.
  rewrite Z.sub_0_r. reflexivity.
Qed.

Lemma len_delim : len delim = 3.
Proof. reflexivity. Qed.

Lemma delim_prefix_take b : delim `prefix_of` b ↔ take 3 b = delim.
Proof.
  split.
  - intros [k ->]. reflexivity.
  - intros H. exists (drop 3 b). rewrite <- H. symmetry. apply take_drop.
Qed.

(** The shape of [readMeta] once the length test and the slices, which
    are always in range, are resolved. *)
Lemma readMeta_cases b :
  readMeta b =
  if bool_decide (delim `prefix_of` b) then
    let i := Index (drop 3 b) delim in
    if i =? -1 then Some (nil_map, b)
    else
      pre ← slice b 3 (i + 3);
      body ← slice_from b (i + 6);
      Some (Some (foldl readMeta_line ∅ (Split pre newline)), body)
  else Some (nil_map, b).
Proof.
  unfold readMeta. destruct (len b <? 3) eqn:E.
  - apply Z.ltb_lt in E. rewrite bool_decide_eq_false_2; [reflexivity|].
    intros [k ->]. rewrite len_app, len_delim in E. pose proof (len_nonneg k). lia.
  - apply Z.ltb_ge in E. rewrite slice_to_take by lia. cbn [mbind option_bind].
    unfold Equal. change (Z.to_nat 3) with 3%nat.
    destruct (bool_decide (take 3 b = delim)) eqn:Ht.
    + apply bool_decide_eq_true in Ht. 
      rewrite bool_decide_eq_true_2 by (apply delim_prefix_take; exact Ht).
      cbn [negb]. rewrite slice_from_drop by lia. reflexivity.
    + apply bool_decide_eq_false in Ht.
      rewrite bool_decide_eq_false_2 by (rewrite delim_prefix_take; exact Ht).
      reflexivity.
Qed.

(** [readMeta] never panics: every slice expression it evaluates is in
    range. *)
Lemma readMeta_total b : is_Some (readMeta b).
Proof.
  rewrite readMeta_cases. destruct (bool_decide (delim `prefix_of` b)) eqn:Hp; [|eauto].
  apply bool_decide_eq_true in Hp as [t ->].
  change (drop 3 (delim ++ t)) with t. cbv zeta.
  destruct (Index_inv t delim) as [[H _]|(x & y & [-> _] & H)]; rewrite H.
  - simpl. eauto.
  - pose proof (len_nonneg x). pose proof (len_nonneg y).
    destruct (len x =? -1) eqn:E; [apply Z.eqb_eq in E; lia|].
    rewrite slice_in_range by (rewrite ?len_app, ?len_delim; lia).
    cbn [mbind option_bind].
    rewrite slice_from_drop by (rewrite ?len_app, ?len_delim; lia).
    cbn [mbind option_bind]. eauto.
Qed.

(** C1.  An input that does not begin with the delimiter [---], or that
    begins with it but has no further [---] after the first three bytes,
    is returned whole as the body, with the nil (empty) metadata map;
    [readMeta] does not fail on it. *)
Theorem readMeta_without_preamble (b : bytes) :
  ¬ delim `prefix_of` b
  ∨ (delim `prefix_of` b ∧ ∀ x y, drop 3 b ≠ x ++ delim ++ y) →
  readMeta b = Some (nil_map, b)
  ∧ map_len nil_map = 0%nat
  ∧ ∀ k, map_index nil_map k = [].
Proof.
  intros H. split; [|split; [reflexivity|intros k; reflexivity]].
  rewrite readMeta_cases. destruct H as [Hn|[Hp Hno]].
  - rewrite bool_decide_eq_false_2 by exact Hn. reflexivity.
  - rewrite bool_decide_eq_true_2 by exact Hp. cbv zeta.
    rewrite (Index_absent _ _ Hno). reflexivity.
Qed.

Lemma readMeta_without_preamble_witness :
  readMeta (str "# Title" ++ newline ++ str "--- not a preamble")
  = Some (nil_map, str "# Title" ++ newline ++ str "--- not a preamble")
  ∧ map_len nil_map = 0%nat
  ∧ ∀ k, map_index nil_map k = [].
Proof.
  apply (readMeta_without_preamble
           (str "# Title" ++ newline ++ str "--- not a preamble")).
  left. intros [k Hk]. discriminate Hk.
Defined.

(** C2.  An input that begins with [---] and has another [---] after the
    first three bytes splits as [--- pre --- rest], the second delimiter
    being the first one found after the opening one.  The metadata map is
    read from the lines of [pre]: each line with a [:] gives the pair of
    its trimmed sides around the first [:], lines without [:] give
    nothing, and of several pairs with one key the last wins.  Trimming
    removes the white space around the key and around the value: a line
    [key : value] with ASCII white space around a bare key and a bare
    value gives the entry of that key with that value, unless a later line
    has the key again.  The body is [rest]: the input from three bytes
    past the start of the second delimiter. *)
Theorem readMeta_with_preamble (b : bytes) :
  delim `prefix_of` b →
  (∃ x y, drop 3 b = x ++ delim ++ y) →
  ∃ pre rest meta,
    b = delim ++ pre ++ delim ++ rest
    ∧ (∀ x y, drop 3 b = x ++ delim ++ y → (length pre ≤ length x)%nat)
    ∧ readMeta b = Some (Some meta, rest)
    ∧ rest = drop (3 + length pre + 3) b
    ∧ meta = spec_meta pre
    ∧ (∀ k, k ∉ (spec_entries pre).*1 → meta !! k = None)
    ∧ (∀ es1 k v es2,
         spec_entries pre = es1 ++ (k, v) :: es2 → k ∉ es2.*1 →
         meta !! k = Some v)
    ∧ (∀ ls1 ls2 ws1 k ws2 ws3 v ws4,
         spec_lines pre
         = ls1 ++ (ws1 ++ k ++ ws2 ++ colon ++ ws3 ++ v ++ ws4) :: ls2 →
         Forall ascii_space ws1 → Forall ascii_space ws2 →
         Forall ascii_space ws3 → Forall ascii_space ws4 →
         trimmed k → trimmed v → (":"%char ∉ k) →
         k ∉ (omap spec_entry ls2).*1 →
         meta !! k = Some v).
Proof.
  intros [t ->] (x0 & y0 & H0). change (drop 3 (delim ++ t)) with t in *.
  destruct (Index_inv t delim) as [[_ Hno]|(pre & rest & [-> Hmin] & Hi)].
  { destruct (Hno _ _ H0). }
  exists pre, rest, (spec_meta pre).
  pose proof (len_nonneg pre). pose proof (len_nonneg rest).
  split; [reflexivity|]. split; [exact Hmin|].
  split; [|split; [|split; [reflexivity|split; [|split]]]].
  - rewrite readMeta_cases.
    rewrite bool_decide_eq_true_2 by (eexists; reflexivity).
    change (drop 3 (delim ++ pre ++ delim ++ rest)) with (pre ++ delim ++ rest).
    cbv zeta. rewrite Hi.
    destruct (len pre =? -1) eqn:E; [apply Z.eqb_eq in E; lia|].
    replace (len pre + 3) with (len delim + len pre) by (rewrite len_delim; lia).
    rewrite slice_middle. cbn [mbind option_bind].
    rewrite (app_assoc delim), (app_assoc (delim ++ pre)).
    rewrite slice_from_app by (rewrite ?len_app, ?len_delim; lia).
    cbn [mbind option_bind]. rewrite readMeta_loop. reflexivity.
  - rewrite (app_assoc delim), (app_assoc (delim ++ pre)).
    rewrite drop_app_length'; [reflexivity|].
    rewrite !length_app. change (length delim) with 3%nat. lia.
  - intros k Hk. apply list_to_map_reverse_none. exact Hk.
  - intros es1 k v es2 Hes Hk. unfold spec_meta. rewrite Hes.
    apply list_to_map_reverse_last. exact Hk.
  - intros ls1 ls2 ws1 k ws2 ws3 v ws4 Hls Hw1 Hw2 Hw3 Hw4 Hk Hv Hc Hlater.
    unfold spec_meta, spec_entries. rewrite Hls, omap_app. cbn [omap list_omap].
    rewrite spec_entry_padded by assumption.
    apply list_to_map_reverse_last. exact Hlater.
Qed.

Lemma readMeta_with_preamble_witness :
  ∃ pre rest meta,
    str "---" ++ newline ++ str " date :  2024-05-01 " ++ newline ++ str "---"
      ++ newline ++ str "text"
    = delim ++ pre ++ delim ++ rest
    ∧ readMeta (str "---" ++ newline ++ str " date :  2024-05-01 " ++ newline
                ++ str "---" ++ newline ++ str "text") = Some (Some meta, rest)
    ∧ meta = spec_meta pre
    ∧ meta !! str "date" = Some (str "2024-05-01").
Proof.
  destruct (readMeta_with_preamble
              (str "---" ++ newline ++ str " date :  2024-05-01 " ++ newline
               ++ str "---" ++ newline ++ str "text"))
    as (pre & rest & meta & H1 & _ & H2 & _ & H3 & _).
  - exists (newline ++ str " date :  2024-05-01 " ++ newline ++ str "---"
            ++ newline ++ str "text"). reflexivity.
  - exists (newline ++ str " date :  2024-05-01 " ++ newline), (newline ++ str "text").
    reflexivity.
  - exists pre, rest, meta. split; [exact H1|]. split; [exact H2|]. split; [exact H3|].
    assert (readMeta (str "---" ++ newline ++ str " date :  2024-05-01 " ++ newline
                      ++ str "---" ++ newline ++ str "text")
            = Some (Some (<[str "date" := str "2024-05-01"]> ∅), newline ++ str "text"))
      as E by (vm_compute; reflexivity).
    rewrite E in H2. injection H2 as <- _. vm_compute. reflexivity.
Defined.
(** ** Extensions, suffixes and URLs *)

Lemma HasSuffix_true s suf : HasSuffix s suf = true ↔ ∃ x, s = x ++ suf.
Proof. unfold HasSuffix. rewrite bool_decide_eq_true. reflexivity. Qed.

Lemma TrimSuffix_app s suf : TrimSuffix (s ++ suf) suf = s.
Proof.
  unfold TrimSuffix.
  replace (HasSuffix (s ++ suf) suf) with true
    by (symmetry; apply HasSuffix_true; eauto).
  rewrite length_app.
  replace (length s + length suf - length suf)%nat with (length s) by lia.
  apply take_app_length.
Qed.

Lemma TrimSuffix_no_suffix s suf : ¬ suf `suffix_of` s → TrimSuffix s suf = s.
Proof.
  intros H. unfold TrimSuffix, HasSuffix. rewrite bool_decide_eq_false_2 by exact H.
  reflexivity.
Qed.

Lemma TrimSuffix_suffix s suf : suf `suffix_of` s → s = TrimSuffix s suf ++ suf.
Proof. intros [x ->]. rewrite TrimSuffix_app. reflexivity. Qed.

Lemma Ext_loop_inv path n :
  filepath.Ext_loop path n = []
  ∨ ∃ i, (i < n)%nat ∧ path !! i = Some "."%char
         ∧ filepath.Ext_loop path n = drop i path
         ∧ ∀ j c, (i < j < n)%nat → path !! j = Some c →
                  c ≠ "."%char ∧ c ≠ "/"%char.
Proof.
  induction n as [|n IH]; [left; reflexivity|].
  cbn [filepath.Ext_loop].
  destruct (path !! n) as [c|] eqn:Hc; [|left; reflexivity].
  unfold filepath.IsPathSeparator.
  destruct (bool_decide (c = "/"%char)) eqn:Hsep; [left; reflexivity|].
  destruct (bool_decide (c = "."%char)) eqn:Hdot.
  - apply bool_decide_eq_true in Hdot as ->. right. exists n.
    split; [lia|]. split; [exact Hc|]. split; [reflexivity|]. intros; lia.
  - apply bool_decide_eq_false in Hdot, Hsep.
    destruct IH as [IH|(i & Hi & Hpi & He & Hrest)]; [left; exact IH|].
    right. exists i. split; [lia|]. split; [exact Hpi|]. split; [exact He|].
    intros j c' Hj Hpj. destruct (decide (j = n)) as [->|Hne].
    + rewrite Hc in Hpj. injection Hpj as <-. split; assumption.
    + apply (Hrest j); [lia|exact Hpj].
Qed.

(** The extension is the end of the path. *)
Lemma Ext_suffix path : filepath.Ext path `suffix_of` path.
Proof.
  unfold filepath.Ext.
  destruct (Ext_loop_inv path (length path)) as [->|(i & _ & _ & -> & _)].
  - apply suffix_nil.
  - apply suffix_drop.
Qed.

Lemma Ext_shape path :
  filepath.Ext path = []
  ∨ ∃ e, filepath.Ext path = "."%char :: e ∧ plain e.
Proof.
  unfold filepath.Ext.
  destruct (Ext_loop_inv path (length path)) as [H|(i & Hi & Hpi & He & Hrest)];
    [left; exact H|].
  right. exists (drop (S i) path). split.
  - rewrite He. apply drop_S. exact Hpi.
  - intros c Hin. apply list_elem_of_lookup in Hin as [j Hj].
    rewrite lookup_drop in Hj. apply (Hrest (S i + j)%nat); [|exact Hj].
    apply lookup_lt_Some in Hj. lia.
Qed.

(** A path that ends in a dot followed by plain bytes has that ending as
    its extension. *)
Lemma Ext_loop_skip path n k :
  (∀ j c, (n ≤ j < n + k)%nat → path !! j = Some c →
          c ≠ "."%char ∧ c ≠ "/"%char) →
  (n + k ≤ length path)%nat →
  filepath.Ext_loop path (n + k) = filepath.Ext_loop path n.
Proof.
  induction k as [|k IH]; intros Hplain Hlen.
  - rewrite Nat.add_0_r. reflexivity.
  - replace (n + S k)%nat with (S (n + k)) by lia. cbn [filepath.Ext_loop].
    destruct (path !! (n + k)%nat) as [c|] eqn:Hc.
    + destruct (Hplain (n + k)%nat c ltac:(lia) Hc) as [Hd Hs].
      unfold filepath.IsPathSeparator.
      rewrite (bool_decide_eq_false_2 _ Hs), (bool_decide_eq_false_2 _ Hd).
      apply IH; [|lia]. intros j c' Hj. apply Hplain. lia.
    + apply lookup_ge_None in Hc. lia.
Qed.

Lemma Ext_app p e : plain e → filepath.Ext (p ++ "."%char :: e) = "."%char :: e.
Proof.
  intros He. unfold filepath.Ext. rewrite length_app. cbn [length].
  replace (length p + S (length e))%nat with (S (length p) + length e)%nat by lia.
  rewrite Ext_loop_skip.
  - cbn [filepath.Ext_loop]. rewrite list_lookup_middle by reflexivity.
    unfold filepath.IsPathSeparator.
    rewrite bool_decide_eq_false_2 by discriminate.
    rewrite bool_decide_eq_true_2 by reflexivity.
    rewrite drop_app_length. reflexivity.
  - intros j c Hj Hc. apply He.
    rewrite lookup_app_r in Hc by lia.
    replace (j - length p)%nat with (S (j - S (length p))) in Hc by lia.
    simpl in Hc. apply list_elem_of_lookup. eauto.
  - rewrite length_app. simpl. lia.
Qed.

Lemma plain_md : plain (str "md").
Proof.
  intros c Hc. unfold str in Hc. simpl in Hc.
  repeat (apply elem_of_cons in Hc as [->|Hc]; [split; discriminate|]).
  inversion Hc.
Qed.

Lemma Ext_md p : filepath.Ext (p ++ str ".md") = str ".md".
Proof. apply (Ext_app p (str "md")), plain_md. Qed.

(** The URL of [s ++ "index.md"] is [s], whatever [s] is. *)
Lemma url_of_index_md s : url_of (s ++ str "index.md") = s.
Proof.
  unfold url_of.
  change (str "index.md") with (str "index" ++ str ".md").
  rewrite app_assoc, Ext_md, TrimSuffix_app, <- app_assoc.
  change (str "index" ++ str ".html") with (str "index.html").
  apply TrimSuffix_app.
Qed.

(** The URL of a path in terms of its stem. *)
Lemma url_of_stem relpath :
  let stem := TrimSuffix relpath (filepath.Ext relpath) in
  relpath = stem ++ filepath.Ext relpath
  ∧ (∀ d, stem ++ str ".html" = d ++ str "index.html" → url_of relpath = d)
  ∧ (¬ str "index.html" `suffix_of` stem ++ str ".html" →
     url_of relpath = stem ++ str ".html").
Proof.
  intros stem. split; [|split].
  - apply TrimSuffix_suffix, Ext_suffix.
  - intros d Hd. unfold url_of. fold stem. rewrite Hd. apply TrimSuffix_app.
  - intros Hn. unfold url_of. fold stem. apply TrimSuffix_no_suffix, Hn.
Qed.
(** ** The order of sort keys *)

Lemma byte_val_inj x y : byte_val x = byte_val y → x = y.
Proof.
  unfold byte_val. intros H. apply N2Z.inj in H.
  rewrite <- (ascii_N_embedding x), <- (ascii_N_embedding y). congruence.
Qed.

Lemma Compare_cons x a y b :
  Compare (x :: a) (y :: b) =
  if byte_val x <? byte_val y then -1
  else if byte_val y <? byte_val x then 1
  else Compare a b.
Proof. reflexivity. Qed.

Ltac by_bytes :=
  repeat match goal with
         | |- context [?u <? ?v] => destruct (Z.ltb_spec u v)
         | H : context [?u <? ?v] |- _ => destruct (Z.ltb_spec u v)
         end; try lia.

Lemma Compare_refl a : Compare a a = 0.
Proof. induction a as [|x a IH]; [reflexivity|]. rewrite Compare_cons. by_bytes. Qed.

Lemma Compare_antisym a b : Compare b a = - Compare a b.
Proof.
  revert b. induction a as [|x a IH]; intros [|y b]; try reflexivity.
  rewrite !Compare_cons. specialize (IH b). by_bytes.
Qed.

Lemma Compare_eq a b : Compare a b = 0 → a = b.
Proof.
  revert b. induction a as [|x a IH]; intros [|y b]; try discriminate; [reflexivity|].
  rewrite Compare_cons. intros H. by_bytes.
  f_equal; [apply byte_val_inj; lia|apply IH; exact H].
Qed.

Lemma Compare_range a b : -1 <= Compare a b <= 1.
Proof.
  revert b. induction a as [|x a IH]; intros [|y b]; simpl; try lia.
  specialize (IH b). by_bytes.
Qed.

Lemma Compare_le_trans a b c :
  Compare a b <= 0 → Compare b c <= 0 → Compare a c <= 0.
Proof.
  revert b c. induction a as [|x a IH]; intros [|y b] [|z c]; simpl; try lia.
  intros H1 H2. specialize (IH b c). by_bytes.
Qed.

Lemma Compare_nil_r a : Compare a [] <= 0 → a = [].
Proof. destruct a; [reflexivity|simpl; lia]. Qed.

Lemma Compare_nil_l b : Compare [] b <= 0.
Proof. destruct b; simpl; lia. Qed.

(** ** Insertion sort *)

Lemma filter_none {A} (P : A → Prop) `{!∀ x, Decision (P x)} (l : list A) :
  (∀ x, x ∈ l → ¬ P x) → filter P l = [].
Proof.
  induction l as [|x l IH]; intros Hno; [reflexivity|].
  rewrite filter_cons_False by (apply Hno; left).
  apply IH. intros y Hy. apply Hno. right. exact Hy.
Qed.

Lemma ins_rev_split x rp :
  ∃ l1 l2, rp = l1 ++ l2 ∧ ins_rev x rp = l1 ++ x :: l2
           ∧ ∀ y, y ∈ l1 → 0 < Compare (sortKey x) (sortKey y).
Proof.
  induction rp as [|y rp IH].
  - exists [], []. split; [reflexivity|]. split; [reflexivity|]. intros y Hy. inversion Hy.
  - cbn [ins_rev]. destruct (Z.ltb_spec 0 (Compare (sortKey x) (sortKey y))) as [Hlt|Hge].
    + destruct IH as (l1 & l2 & -> & -> & Hl1). exists (y :: l1), l2.
      split; [reflexivity|]. split; [reflexivity|].
      intros z Hz. apply elem_of_cons in Hz as [->|Hz]; [exact Hlt|exact (Hl1 _ Hz)].
    + exists [], (y :: rp). split; [reflexivity|]. split; [reflexivity|].
      intros z Hz. inversion Hz.
Qed.

Lemma ins_rev_perm x rp : ins_rev x rp ≡ₚ x :: rp.
Proof.
  destruct (ins_rev_split x rp) as (l1 & l2 & -> & -> & _).
  symmetry. apply Permutation_middle.
Qed.

Lemma ins_rev_length x rp : length (ins_rev x rp) = S (length rp).
Proof. rewrite (ins_rev_perm x rp). reflexivity. Qed.

Lemma ins_rev_sorted x rp :
  StronglySorted key_le rp → StronglySorted key_le (ins_rev x rp).
Proof.
  induction 1 as [|y rp Hs IH Hall]; cbn [ins_rev].
  - repeat constructor.
  - destruct (Z.ltb_spec 0 (Compare (sortKey x) (sortKey y))) as [Hlt|Hge].
    + constructor; [exact IH|].
      rewrite (ins_rev_perm x rp). constructor; [|exact Hall].
      unfold key_le. rewrite Compare_antisym. lia.
    + constructor; [constructor; assumption|].
      constructor; [exact Hge|].
      eapply Forall_impl; [exact Hall|]. intros z Hz. unfold key_le in *.
      eapply Compare_le_trans; eassumption.
Qed.

Lemma foldl_ins_rev_perm l rp : foldl (λ rp x, ins_rev x rp) rp l ≡ₚ l ++ rp.
Proof.
  revert rp. induction l as [|x l IH]; intros rp; [reflexivity|].
  cbn [foldl]. rewrite IH, ins_rev_perm. simpl. symmetry. apply Permutation_middle.
Qed.

Lemma foldl_ins_rev_sorted l rp :
  StronglySorted key_le rp →
  StronglySorted key_le (foldl (λ rp x, ins_rev x rp) rp l).
Proof.
  revert rp. induction l as [|x l IH]; intros rp Hrp; [exact Hrp|].
  cbn [foldl]. apply IH, ins_rev_sorted, Hrp.
Qed.

Lemma foldl_ins_rev_stable k l rp :
  filter (λ p, sortKey p = k) (reverse (foldl (λ rp x, ins_rev x rp) rp l))
  = filter (λ p, sortKey p = k) (reverse rp ++ l).
Proof.
  revert rp. induction l as [|x l IH]; intros rp.
  - rewrite app_nil_r. reflexivity.
  - cbn [foldl]. rewrite IH.
    destruct (ins_rev_split x rp) as (l1 & l2 & -> & -> & Hl1).
    rewrite !reverse_app, reverse_cons, !filter_app, <- !app_assoc.
    f_equal.
    assert (∀ y, y ∈ l1 → sortKey x ≠ sortKey y) as Hne.
    { intros y Hy Heq. specialize (Hl1 y Hy). rewrite Heq, Compare_refl in Hl1. lia. }
    destruct (decide (sortKey x = k)) as [Hk|Hk].
    + assert (filter (λ p, sortKey p = k) (reverse l1) = []) as ->.
      { apply filter_none. intros y Hy Hyk.
        rewrite elem_of_reverse in Hy. apply (Hne y Hy). congruence. }
      rewrite !(filter_cons_True _ x) by exact Hk. reflexivity.
    + rewrite !(filter_cons_False _ x) by exact Hk. reflexivity.
Qed.

Lemma isort_perm l : isort l ≡ₚ l.
Proof.
  unfold isort. rewrite reverse_Permutation, foldl_ins_rev_perm, app_nil_r.
  reflexivity.
Qed.

Lemma isort_stable k l :
  filter (λ p, sortKey p = k) (isort l) = filter (λ p, sortKey p = k) l.
Proof. unfold isort. rewrite foldl_ins_rev_stable. reflexivity. Qed.

Lemma StronglySorted_lookup {A} (R : A → A → Prop) l i j a b :
  StronglySorted R l → (i < j)%nat → l !! i = Some a → l !! j = Some b → R a b.
Proof.
  intros Hs. revert i j. induction Hs as [|x l Hs IH Hall]; intros i j Hij Hi Hj.
  - rewrite lookup_nil in Hi. discriminate.
  - destruct j as [|j]; [lia|]. simpl in Hj. destruct i as [|i].
    + simpl in Hi. injection Hi as <-. rewrite Forall_forall in Hall.
      apply Hall. apply list_elem_of_lookup. eauto.
    + simpl in Hi. apply (IH i j); [lia|assumption..].
Qed.

(** In the sorted list the keys descend. *)
Lemma isort_descending l i j pi pj :
  (i < j)%nat → isort l !! i = Some pi → isort l !! j = Some pj →
  Compare (sortKey pj) (sortKey pi) <= 0.
Proof.
  unfold isort. intros Hij Hi Hj.
  set (rp := foldl (λ rp x, ins_rev x rp) [] l) in *.
  assert (StronglySorted key_le rp) as Hs
    by (apply foldl_ins_rev_sorted; constructor).
  pose proof (lookup_lt_Some _ _ _ Hi) as Hli.
  pose proof (lookup_lt_Some _ _ _ Hj) as Hlj.
  rewrite length_reverse in Hli, Hlj.
  rewrite reverse_lookup in Hi by exact Hli.
  rewrite reverse_lookup in Hj by exact Hlj.
  apply (StronglySorted_lookup key_le rp (length rp - S j) (length rp - S i) pj pi Hs);
    [lia|exact Hj|exact Hi].
Qed.
(** ** [sort.Stable] on [Pages] *)

Lemma lookup_adjacent (pre post : Pages) x y :
  (pre ++ y :: x :: post) !! S (length pre) = Some x
  ∧ (pre ++ y :: x :: post) !! length pre = Some y.
Proof.
  split; [|apply list_lookup_middle; reflexivity].
  rewrite lookup_app_r by lia.
  replace (S (length pre) - length pre)%nat with 1%nat by lia. reflexivity.
Qed.

Lemma swap_adjacent (pre post : Pages) x y :
  Pages_Swap (pre ++ y :: x :: post) (S (length pre)) (length pre)
  = Some (pre ++ x :: y :: post).
Proof.
  unfold Pages_Swap. destruct (lookup_adjacent pre post x y) as [-> ->].
  cbn [mbind option_bind]. f_equal.
  rewrite (insert_app_r_alt pre _ (S (length pre))) by lia.
  replace (S (length pre) - length pre)%nat with 1%nat by lia.
  rewrite (insert_app_r_alt pre _ (length pre)) by lia.
  rewrite Nat.sub_diag. reflexivity.
Qed.

Lemma less_adjacent (pre post : Pages) x y :
  Pages_Less (pre ++ y :: x :: post) (S (length pre)) (length pre)
  = Some (0 <? Compare (sortKey x) (sortKey y)).
Proof.
  unfold Pages_Less. destruct (lookup_adjacent pre post x y) as [-> ->].
  reflexivity.
Qed.

(** The inner loop inserts the element at index [length pre] into the
    prefix before it. *)
Lemma insert_at_spec (pre post : Pages) x :
  insert_at (pre ++ x :: post) 0 (length pre)
  = Some (reverse (ins_rev x (reverse pre)) ++ post).
Proof.
  revert post. induction pre as [|y pre IH] using rev_ind; intros post.
  - reflexivity.
  - rewrite length_app, Nat.add_1_r. cbn [insert_at length].
    change (0 <? S (length pre))%nat with true. cbv iota.
    rewrite <- app_assoc. cbn [app Less Swap Pages_Interface].
    rewrite less_adjacent. cbn [mbind option_bind].
    rewrite reverse_app. cbn [reverse app ins_rev]. 
    change (reverse [y]) with [y]. cbn [app ins_rev].
    destruct (0 <? Compare (sortKey x) (sortKey y)).
    + rewrite swap_adjacent. cbn [mbind option_bind].
      rewrite IH, reverse_cons, <- app_assoc. reflexivity.
    + rewrite !reverse_cons, reverse_involutive, <- !app_assoc. reflexivity.
Qed.

Lemma insertionSort_from_spec (rest rp : Pages) :
  insertionSort_from (length rest) (reverse rp ++ rest) 0 (length rp)
  = Some (reverse (foldl (λ rp x, ins_rev x rp) rp rest)).
Proof.
  revert rp. induction rest as [|x rest IH]; intros rp.
  - simpl. rewrite app_nil_r. reflexivity.
  - cbn [length insertionSort_from foldl].
    rewrite <- (length_reverse rp) at 1.
    rewrite insert_at_spec, reverse_involutive. cbn [mbind option_bind].
    rewrite <- (ins_rev_length x rp). apply IH.
Qed.

(** The insertion sort of [sort.Stable] never indexes out of range, and
    computes [isort]. *)
Lemma Stable_isort (pages : Pages) : Stable pages = Some (isort pages).
Proof.
  unfold Stable, insertionSort, isort. cbn [Len Pages_Interface]. unfold Pages_Len.
  destruct pages as [|x rest]; [reflexivity|].
  cbn [length foldl ins_rev].
  replace (S (length rest) - (0 + 1))%nat with (length rest) by lia.
  apply (insertionSort_from_spec rest [x]).
Qed.

(** ** Order of two elements *)

Lemma lookup_pair_sublist {A} (l : list A) i j x y :
  (i < j)%nat → l !! i = Some x → l !! j = Some y → [x; y] `sublist_of` l.
Proof.
  revert i j. induction l as [|z l IH]; intros i j Hij Hi Hj.
  - rewrite lookup_nil in Hi. discriminate.
  - destruct j as [|j]; [lia|]. simpl in Hj. destruct i as [|i].
    + simpl in Hi. injection Hi as ->. apply sublist_skip.
      apply sublist_cons_l. apply list_elem_of_lookup_2 in Hj.
      apply list_elem_of_split in Hj as (l1 & l2 & ->).
      exists l1, l2. split; [reflexivity|apply sublist_nil_l].
    + apply sublist_cons. apply (IH i j); [lia|assumption..].
Qed.

Lemma sublist_pair_lookup {A} (l : list A) x y :
  [x; y] `sublist_of` l →
  ∃ i j, (i < j)%nat ∧ l !! i = Some x ∧ l !! j = Some y.
Proof.
  intros H. apply sublist_cons_l in H as (l1 & l2 & -> & H).
  apply sublist_cons_l in H as (l3 & l4 & -> & _).
  exists (length l1), (length l1 + S (length l3))%nat. split; [lia|]. split.
  - apply list_lookup_middle. reflexivity.
  - rewrite lookup_app_r by lia.
    replace (length l1 + S (length l3) - length l1)%nat with (S (length l3)) by lia.
    simpl. apply list_lookup_middle. reflexivity.
Qed.

Lemma sublist_filter_mono {A} (P : A → Prop) `{!∀ x, Decision (P x)} (l1 l2 : list A) :
  l1 `sublist_of` l2 → filter P l1 `sublist_of` filter P l2.
Proof.
  induction 1 as [|x l1 l2 Hs IH|x l1 l2 Hs IH]; [constructor|..].
  - rewrite !filter_cons. destruct (decide (P x)); [apply sublist_skip|]; exact IH.
  - rewrite filter_cons. destruct (decide (P x)); [apply sublist_cons|]; exact IH.
Qed.

(** Two pages with the same key stay in their order. *)
Lemma stable_pair (l out : Pages) :
  (∀ k, filter (λ p, sortKey p = k) out = filter (λ p, sortKey p = k) l) →
  ∀ i j pi pj, (i < j)%nat → l !! i = Some pi → l !! j = Some pj →
    sortKey pi = sortKey pj →
    ∃ i' j', (i' < j')%nat ∧ out !! i' = Some pi ∧ out !! j' = Some pj.
Proof.
  intros Hst i j pi pj Hij Hi Hj Hk.
  apply sublist_pair_lookup.
  pose proof (lookup_pair_sublist l i j pi pj Hij Hi Hj) as Hs.
  apply (sublist_filter_mono (λ p, sortKey p = sortKey pj)) in Hs.
  rewrite filter_cons_True in Hs by exact Hk.
  rewrite filter_cons_True in Hs by reflexivity.
  rewrite filter_nil in Hs. rewrite <- Hst in Hs.
  etransitivity; [exact Hs|apply sublist_filter].
Qed.
(** ** A stable sort has one result *)

Lemma descending_cons x t :
  descending (x :: t) →
  descending t ∧ ∀ y, y ∈ t → Compare (sortKey y) (sortKey x) <= 0.
Proof.
  intros H. split.
  - intros i j pi pj Hij Hi Hj. apply (H (S i) (S j)); [lia|assumption..].
  - intros y Hy. apply list_elem_of_lookup in Hy as [j Hj].
    apply (H 0%nat (S j)); [lia|reflexivity|exact Hj].
Qed.

Lemma stable_sort_unique (out1 out2 : Pages) :
  descending out1 → descending out2 → stable_wrt out1 out2 → out1 = out2.
Proof.
  revert out2. induction out1 as [|x t1 IH]; intros out2 H1 H2 Hst.
  - destruct out2 as [|y t2]; [reflexivity|].
    specialize (Hst (sortKey y)). rewrite filter_cons_True in Hst by reflexivity.
    discriminate.
  - destruct out2 as [|y t2].
    { specialize (Hst (sortKey x)). rewrite (filter_cons_True _ x) in Hst by reflexivity.
      discriminate. }
    apply descending_cons in H1 as [H1 Hx]. apply descending_cons in H2 as [H2 Hy].
    assert (sortKey x = sortKey y) as Hk.
    { assert (y ∈ x :: t1) as Hin1.
      { pose proof (Hst (sortKey y)) as E.
        assert (y ∈ filter (λ p, sortKey p = sortKey y) (y :: t2)) as Hin
          by (apply list_elem_of_filter; split; [reflexivity|left]).
        rewrite E in Hin. apply list_elem_of_filter in Hin as [_ Hin]. exact Hin. }
      assert (x ∈ y :: t2) as Hin2.
      { pose proof (Hst (sortKey x)) as E.
        assert (x ∈ filter (λ p, sortKey p = sortKey x) (x :: t1)) as Hin
          by (apply list_elem_of_filter; split; [reflexivity|left]).
        rewrite <- E in Hin. apply list_elem_of_filter in Hin as [_ Hin]. exact Hin. }
      apply elem_of_cons in Hin1 as [->|Hin1]; [reflexivity|].
      apply elem_of_cons in Hin2 as [->|Hin2]; [reflexivity|].
      specialize (Hx _ Hin1). specialize (Hy _ Hin2).
      apply Compare_eq. rewrite Compare_antisym in Hx. lia. }
    pose proof (Hst (sortKey x)) as E.
    rewrite (filter_cons_True _ y) in E by (symmetry; exact Hk).
    rewrite (filter_cons_True _ x) in E by reflexivity.
    injection E as -> E. f_equal. apply IH; [assumption..|].
    intros k. destruct (decide (sortKey x = k)) as [<-|Hne]; [exact E|].
    specialize (Hst k). rewrite !(filter_cons_False _ x) in Hst by exact Hne.
    exact Hst.
Qed.

Lemma isort_is_descending l : descending (isort l).
Proof. intros i j pi pj. apply isort_descending. Qed.

(** C3.  [sort.Stable] on the discovered pages returns a list [out] that
    holds the same pages, with sort keys descending in the bytewise
    lexicographic order of [strings.Compare], the pages of each key in
    their discovery order; it is the only list with these properties.
    The sort key of a page is the value of its ["date"] entry, compared
    as a string of bytes: of two pages with dates, the one with the
    greater date comes first.  A page without a ["date"] entry has the
    empty sort key, every page with an empty key comes after every page
    with a non-empty one, and two pages with equal keys keep their
    relative discovery order. *)
Theorem Stable_pages_order (pages : Pages) :
  ∃ out,
    Stable pages = Some out
    ∧ out ≡ₚ pages
    ∧ descending out
    ∧ stable_wrt pages out
    ∧ (∀ out', descending out' ∧ stable_wrt pages out' → out' = out)
    ∧ (∀ p t v, Meta p = Some t → t !! str "date" = Some v → sortKey p = v)
    ∧ (∀ i j pi pj, (i < j)%nat → out !! i = Some pi → out !! j = Some pj →
            Compare (map_index (Meta pj) (str "date"))
                    (map_index (Meta pi) (str "date")) <= 0)
    ∧ (∀ i j pi pj ti tj vi vj, (i < j)%nat →
            out !! i = Some pi → out !! j = Some pj →
            Meta pi = Some ti → Meta pj = Some tj →
            ti !! str "date" = Some vi → tj !! str "date" = Some vj →
            Compare vj vi <= 0)
    ∧ (∀ p, Meta p = nil_map ∨ (∃ t, Meta p = Some t ∧ t !! str "date" = None) →
            sortKey p = [])
    ∧ (∀ i j pi pj, out !! i = Some pi → out !! j = Some pj →
            sortKey pi = [] → sortKey pj ≠ [] → (j < i)%nat)
    ∧ (∀ i j pi pj, (i < j)%nat → pages !! i = Some pi → pages !! j = Some pj →
            sortKey pi = sortKey pj →
            ∃ i' j', (i' < j')%nat ∧ out !! i' = Some pi ∧ out !! j' = Some pj).
Proof.
  exists (isort pages).
  split; [apply Stable_isort|]. split; [apply isort_perm|].
  split; [apply isort_is_descending|].
  assert (stable_wrt pages (isort pages)) as Hst by (intros k; apply isort_stable).
  assert (∀ p t v, Meta p = Some t → t !! str "date" = Some v → sortKey p = v)
    as Hdate.
  { intros p t v Hp Ht. unfold sortKey, map_index. rewrite Hp, Ht. reflexivity. }
  split; [exact Hst|]. split; [|split; [|split; [|split; [|split; [|split]]]]].
  - intros out' [Hd Hs]. apply stable_sort_unique; [exact Hd|apply isort_is_descending|].
    intros k. rewrite Hst. symmetry. apply Hs.
  - exact Hdate.
  - intros i j pi pj Hij Hi Hj. exact (isort_descending pages i j pi pj Hij Hi Hj).
  - intros i j pi pj ti tj vi vj Hij Hi Hj Hmi Hmj Hvi Hvj.
    rewrite <- (Hdate pi ti vi Hmi Hvi), <- (Hdate pj tj vj Hmj Hvj).
    exact (isort_descending pages i j pi pj Hij Hi Hj).
  - intros p [Hp|(t & Hp & Ht)]; unfold sortKey, map_index; rewrite Hp; [reflexivity|].
    rewrite Ht. reflexivity.
  - intros i j pi pj Hi Hj Hki Hkj.
    destruct (Nat.lt_trichotomy i j) as [Hlt|[->|Hgt]]; [|congruence|exact Hgt].
    pose proof (isort_descending pages i j pi pj Hlt Hi Hj) as Hc.
    rewrite Hki in Hc. apply Compare_nil_r in Hc. contradiction.
  - apply stable_pair. exact Hst.
Qed.
(** ** [readPage] *)

Lemma readPage_inv env abspath siteDir s page s' :
  readPage env abspath siteDir s = Return page s' →
  s' = s
  ∧ ∃ text meta body relpath,
      os_ReadFile (disk s) abspath = inl text
      ∧ readMeta text = Some (meta, body)
      ∧ filepath_Rel env siteDir abspath = inl relpath
      ∧ page = {| Meta := meta; Text := body; Url := url_of relpath; HTML := [];
                  AbsPath := abspath; RelPath := relpath |}.
Proof.
  unfold readPage, bind, get_disk.
  destruct (os_ReadFile (disk s) abspath) as [text|e] eqn:Hr; [|discriminate].
  destruct (readMeta text) as [[meta body]|] eqn:Hm; [|discriminate].
  destruct (filepath_Rel env siteDir abspath) as [relpath|e] eqn:Hrel; [|discriminate].
  unfold ret. intros [= <- <-]. split; [reflexivity|].
  exists text, meta, body, relpath. auto.
Qed.

(** C4.  The URL of a page is derived from its path relative to the site
    root, [relpath = stem ++ ext], where [ext] is the extension (empty, or
    a dot followed by bytes with neither a dot nor a slash): the derived
    URL is [stem ++ ".html"], from which one [index.html] is cut when, and
    only when, it stands at the very end.  So [dir ++ "index.md"] gets the
    URL [dir], the empty string at the root. *)
Theorem readPage_url env abspath siteDir s page s' :
  readPage env abspath siteDir s = Return page s' →
  let relpath := RelPath page in
  let stem := TrimSuffix relpath (filepath.Ext relpath) in
  filepath_Rel env siteDir abspath = inl relpath
  ∧ relpath = stem ++ filepath.Ext relpath
  ∧ (filepath.Ext relpath = []
     ∨ ∃ e, filepath.Ext relpath = "."%char :: e ∧ plain e)
  ∧ (∀ d, stem ++ str ".html" = d ++ str "index.html" → Url page = d)
  ∧ (¬ str "index.html" `suffix_of` stem ++ str ".html" →
     Url page = stem ++ str ".html")
  ∧ (∀ dir, relpath = dir ++ str "index.md" → Url page = dir)
  ∧ (relpath = str "index.md" → Url page = []).
Proof.
  intros H. apply readPage_inv in H as (-> & text & meta & body & relpath & _ & _ & Hrel & ->).
  cbn [RelPath Url]. destruct (url_of_stem relpath) as (H1 & H2 & H3).
  split; [exact Hrel|]. split; [exact H1|]. split; [apply Ext_shape|].
  split; [exact H2|]. split; [exact H3|]. split.
  - intros dir ->. apply url_of_index_md.
  - intros ->. apply (url_of_index_md []).
Qed.

Lemma readPage_url_witness :
  ∃ page,
    readPage (ex_env []) (str "/s/blog/index.md") (str "/s") ex_state
    = Return page ex_state
    ∧ RelPath page = str "blog/index.md"
    ∧ Url page = str "blog/".
Proof.
  eexists. split; [vm_compute; reflexivity|]. split; [reflexivity|].
  refine (proj1 (proj2 (proj2 (proj2 (proj2 (proj2
    (readPage_url (ex_env []) (str "/s/blog/index.md") (str "/s") ex_state _ ex_state _))))))
    (str "blog/") _).
  - vm_compute. reflexivity.
  - reflexivity.
Defined.

(** C10.  Cutting [index.html] looks at the end of the derived URL only,
    not at the file name: every path [s ++ "index.md"] gets the URL [s],
    so [myindex.md] gets [my].  Distinct sources can thus get the same
    URL, and the URL of one can be a truncation of the URL of another. *)
Theorem url_of_trailing_index :
  url_of (str "myindex.md") = str "my"
  ∧ (∀ s, url_of (s ++ str "index.md") = s)
  ∧ (str "a.md" ≠ str "a.htmlindex.md"
     ∧ url_of (str "a.md") = url_of (str "a.htmlindex.md"))
  ∧ (url_of (str "my.md") = url_of (str "myindex.md") ++ str ".html").
Proof.
  split; [apply (url_of_index_md (str "my"))|].
  split; [exact url_of_index_md|].
  split; [split; [discriminate|vm_compute; reflexivity]|].
  vm_compute. reflexivity.
Qed.

(** ** [dateformat] *)

Lemma dateFormats_closed k :
  is_Some (dateFormats !! k)
  ↔ k = str "rfc822" ∨ k = str "yyyy-mm-dd" ∨ k = str "shortdate".
Proof.
  unfold dateFormats. rewrite !lookup_insert, lookup_empty.
  repeat case_decide; subst; split; intros Hk;
    try (eexists; reflexivity); try tauto;
    try (destruct Hk as [? Hk]; discriminate Hk).
  destruct Hk as [Hk|[Hk|Hk]]; congruence.
Qed.

(** C5.  [dateformat] returns an error exactly when [src] or [dst] is
    not a name of [dateFormats]; the source name is looked at first, the
    destination name next.  With both names known it returns no error:
    when [time.Parse] fails, the error is dropped and the zero time is
    formatted. *)
Theorem dateformat_errors env src dst input :
  (is_Some (snd (dateformat env src dst input))
   ↔ dateFormats !! src = None ∨ dateFormats !! dst = None)
  ∧ (dateFormats !! src = None →
     dateformat env src dst input = ([], Some (str "unknown date format: " ++ src)))
  ∧ (is_Some (dateFormats !! src) → dateFormats !! dst = None →
     dateformat env src dst input = ([], Some (str "unknown date format: " ++ dst)))
  ∧ (∀ srcfmt dstfmt,
       dateFormats !! src = Some srcfmt → dateFormats !! dst = Some dstfmt →
       (∀ e, time_Parse env srcfmt input = inr e →
             dateformat env src dst input
             = (time_Format env (zeroTime env) dstfmt, None))
       ∧ (∀ t, time_Parse env srcfmt input = inl t →
               dateformat env src dst input = (time_Format env t dstfmt, None)))
  ∧ (∀ k, is_Some (dateFormats !! k)
          ↔ k = str "rfc822" ∨ k = str "yyyy-mm-dd" ∨ k = str "shortdate").
Proof.
  split; [|split; [|split; [|split]]].
  - unfold dateformat.
    destruct (dateFormats !! src) as [srcfmt|]; [|simpl; split; eauto].
    destruct (dateFormats !! dst) as [dstfmt|]; simpl.
    + split; [intros [? H]; discriminate H|intros [H|H]; discriminate H].
    + split; eauto.
  - intros H. unfold dateformat. rewrite H. reflexivity.
  - intros [srcfmt H1] H2. unfold dateformat. rewrite H1, H2. reflexivity.
  - intros srcfmt dstfmt H1 H2. unfold dateformat. rewrite H1, H2.
    split; intros ? ->; reflexivity.
  - exact dateFormats_closed.
Qed.

(** ** [readTmpl] *)

Lemma Replace_first s old new x y :
  first_at s old x y → Replace s old new 1 = x ++ new ++ y.
Proof.
  intros Hf. pose proof (Index_found _ _ _ _ Hf) as Hi. destruct Hf as [-> _].
  cbn [Replace]. rewrite Hi. pose proof (len_nonneg x).
  destruct (len x <? 0) eqn:E; [apply Z.ltb_lt in E; lia|].
  unfold len. rewrite Nat2Z.id, take_app_length.
  do 2 f_equal. cbn [Replace]. rewrite (app_assoc x old y).
  apply drop_app_length'. rewrite length_app. reflexivity.
Qed.

Lemma Replace_absent s old new n :
  (∀ x y, s ≠ x ++ old ++ y) → Replace s old new n = s.
Proof.
  intros H. destruct n; [reflexivity|]. cbn [Replace].
  rewrite (Index_absent _ _ H). reflexivity.
Qed.

(** C6.  Given that the built-in layout, with the built-in stylesheet in
    place of the first [STYLE_PLACEHOLDER], parses ([template.Must] would
    panic otherwise): [readTmpl] returns the template parsed from
    [base.tmpl] under the site root when that file can be read and
    parses; when the file is absent, cannot be read, or does not parse, it
    returns the built-in layout.  It neither exits nor writes to the log
    or the disk. *)
Theorem readTmpl_fallback env siteDir s (dt : Template env) :
  template_Parse env (default_text env) = inl dt →
  let tmplPath := filepath_Join env siteDir (str "base.tmpl") in
  (∀ text t, os_ReadFile (disk s) tmplPath = inl text →
             template_Parse env text = inl t →
             readTmpl env siteDir s = Return t s)
  ∧ (∀ text e, os_ReadFile (disk s) tmplPath = inl text →
               template_Parse env text = inr e →
               readTmpl env siteDir s = Return dt s)
  ∧ (∀ e, os_ReadFile (disk s) tmplPath = inr e →
          readTmpl env siteDir s = Return dt s)
  ∧ (disk s !! tmplPath = None → readTmpl env siteDir s = Return dt s)
  ∧ (∀ x y, first_at (defaultHTML env) (str "STYLE_PLACEHOLDER") x y →
            default_text env = x ++ defaultCSS env ++ y).
Proof.
  intros Hd tmplPath.
  assert (∀ e, os_ReadFile (disk s) tmplPath = inr e →
               readTmpl env siteDir s = Return dt s) as Hunread.
  { intros e He. unfold readTmpl, bind, get_disk. fold tmplPath. rewrite He, Hd.
    reflexivity. }
  split; [|split; [|split; [|split]]].
  - intros text t Hr Hp. unfold readTmpl, bind, get_disk. fold tmplPath.
    rewrite Hr, Hp. reflexivity.
  - intros text e Hr Hp. unfold readTmpl, bind, get_disk. fold tmplPath.
    rewrite Hr, Hp, Hd. reflexivity.
  - exact Hunread.
  - intros Hnone. eapply Hunread. unfold os_ReadFile. rewrite Hnone. reflexivity.
  - intros x y Hf. apply Replace_first. exact Hf.
Qed.

Lemma readTmpl_fallback_witness :
  readTmpl (ex_env []) (str "/s") ex_state
  = Return (str "<style>.markdown-body{margin:0}</style>{{.Page.HTML}}") ex_state
  ∧ readTmpl (ex_env []) (str "/s")
      {| disk := <[str "/s/base.tmpl" := File (str "<html>{{ .Page.HTML </html>") 0x1A4]> ex_disk;
         log := [] |}
    = Return (str "<style>.markdown-body{margin:0}</style>{{.Page.HTML}}")
        {| disk := <[str "/s/base.tmpl" := File (str "<html>{{ .Page.HTML </html>") 0x1A4]> ex_disk;
           log := [] |}.
Proof.
  split.
  - refine (proj1 (proj2 (proj2 (proj2
      (readTmpl_fallback (ex_env []) (str "/s") ex_state
         (str "<style>.markdown-body{margin:0}</style>{{.Page.HTML}}") _)))) _).
    + vm_compute. reflexivity.
    + vm_compute. reflexivity.
  - refine (proj1 (proj2
      (readTmpl_fallback (ex_env []) (str "/s") _
         (str "<style>.markdown-body{margin:0}</style>{{.Page.HTML}}") _))
      (str "<html>{{ .Page.HTML </html>") (str "template: base:1: unclosed action") _ _).
    + vm_compute. reflexivity.
    + vm_compute. reflexivity.
    + vm_compute. reflexivity.
Defined.
(** ** The render loop *)

Lemma forM_app {A} (l1 l2 : list A) (f : A → M unit) s :
  forM (l1 ++ l2) f s =
  match forM l1 f s with
  | Return _ s' => forM l2 f s'
  | Exit code s' => Exit code s'
  end.
Proof.
  revert s. induction l1 as [|x l1 IH]; intros s; [reflexivity|].
  cbn [app forM]. unfold bind. destruct (f x s) as [[] s'|code s'];
    [apply IH|reflexivity].
Qed.

(** One iteration of the loop, case by case. *)
Lemma render_page_cases env tmpl pages p s :
  render_page env tmpl pages p s =
  let outPath := outPath_of (AbsPath p) in
  let lg := log s ++ [str "* " ++ outPath] in
  match md_Convert env (Text p) with
  | inr e =>
    Exit 1 {| disk := disk s;
              log := lg ++ [str "failed to convert markdown:" ++ e] |}
  | inl body =>
    match template_Execute env tmpl (set_HTML p body) pages with
    | inr e =>
      Exit 1 {| disk := disk s;
                log := lg ++ [str "failed to render page:" ++ e] |}
    | inl out =>
      match os_WriteFile env (disk s) outPath out mode_0600 with
      | (d', Some e) =>
        Exit 1 {| disk := d'; log := lg ++ [str "failed to write file:" ++ e] |}
      | (d', None) => Return tt {| disk := d'; log := lg |}
      end
    end
  end.
Proof.
  unfold render_page, bind, log_Println, log_Fatal, get_disk, put_disk, ret.
  cbv zeta. cbn [disk log].
  destruct (md_Convert env (Text p)) as [body|e]; [|reflexivity].
  destruct (template_Execute env tmpl (set_HTML p body) pages) as [out|e];
    [|reflexivity].
  destruct (os_WriteFile _ _ _ _ _) as [d' [e|]]; reflexivity.
Qed.

(** A failed write can change the disk at the path it was to write
    only, where it can leave a file (created, or truncated). *)
Lemma os_WriteFile_failed env d name data perm d' e :
  os_WriteFile env d name data perm = (d', Some e) →
  d' = d ∨ ∃ part mode, d' = <[name := File part mode]> d.
Proof.
  unfold os_WriteFile. destruct (d !! name) as [[old mode|]|].
  - destruct (write_fault env d name data); intros [= <- _]; eauto.
  - intros [= <- _]. auto.
  - destruct (write_fault env d name data); intros [= <- _]; eauto.
Qed.

Lemma os_WriteFile_done env d name data perm d' :
  os_WriteFile env d name data perm = (d', None) →
  (d !! name = None ∧ d' = <[name := File data (Z.ldiff perm (umask env))]> d)
  ∨ (∃ old mode, d !! name = Some (File old mode)
                 ∧ d' = <[name := File data mode]> d).
Proof.
  unfold os_WriteFile. destruct (d !! name) as [[old mode|]|].
  - destruct (write_fault env d name data); [|discriminate..].
    intros [= <-]. right. eauto.
  - discriminate.
  - destruct (write_fault env d name data); [|discriminate..].
    intros [= <-]. left. auto.
Qed.

Lemma owner_only_created mask : owner_only (Z.ldiff mode_0600 mask).
Proof.
  unfold owner_only. apply Z.bits_inj'. intros n Hn.
  rewrite Z.land_spec, Z.ldiff_spec, Z.bits_0.
  pose proof (Z.land_spec mode_0600 0x3F n) as H.
  change (Z.land mode_0600 0x3F) with 0 in H. rewrite Z.bits_0 in H.
  destruct (Z.testbit mode_0600 n), (Z.testbit 0x3F n), (Z.testbit mask n);
    simpl in *; congruence.
Qed.

Lemma outPath_of_stem abspath :
  let stem := TrimSuffix abspath (filepath.Ext abspath) in
  abspath = stem ++ filepath.Ext abspath ∧ outPath_of abspath = stem ++ str ".html".
Proof. split; [apply TrimSuffix_suffix, Ext_suffix|reflexivity]. Qed.

Lemma outPath_of_index_md dir :
  outPath_of (dir ++ str "index.md") = dir ++ str "index.html".
Proof.
  unfold outPath_of. change (str "index.md") with (str "index" ++ str ".md").
  rewrite app_assoc, Ext_md, TrimSuffix_app, <- app_assoc. reflexivity.
Qed.

(** The line [* outPath] of a [.md] source does not hold the path of the
    source: the last byte of the source path is a [d], and it would have
    to be one of the last five bytes of the line, [.html]. *)
Lemma outPath_line_hides_source stem x y :
  str "* " ++ (stem ++ str ".html") ≠ x ++ (stem ++ str ".md") ++ y.
Proof.
  intros H.
  assert (length y ≤ 4)%nat as Hy.
  { apply (f_equal length) in H. rewrite !length_app in H. cbn [length str] in H.
    unfold str in H. cbn in H. lia. }
  unfold str in H. cbn [String.list_ascii_of_string] in H.
  destruct y as [|y1 [|y2 [|y3 [|y4 [|y5 y]]]]]; [..|cbn in Hy; lia].
  - replace (x ++ (stem ++ [".";"m";"d"]%char) ++ [])
      with ((x ++ stem ++ [".";"m"]%char) ++ ["d"%char]) in H
      by (rewrite <- !app_assoc; reflexivity).
    replace (["*";" "]%char ++ stem ++ [".";"h";"t";"m";"l"]%char)
      with ((["*";" "]%char ++ stem ++ [".";"h";"t";"m"]%char) ++ ["l"%char]) in H
      by (rewrite <- !app_assoc; reflexivity).
    apply app_inj_2 in H as [_ H]; [discriminate|reflexivity].
  - replace (x ++ (stem ++ [".";"m";"d"]%char) ++ [y1])
      with ((x ++ stem ++ [".";"m"]%char) ++ ["d"%char; y1]) in H
      by (rewrite <- !app_assoc; reflexivity).
    replace (["*";" "]%char ++ stem ++ [".";"h";"t";"m";"l"]%char)
      with ((["*";" "]%char ++ stem ++ [".";"h";"t"]%char) ++ ["m";"l"]%char) in H
      by (rewrite <- !app_assoc; reflexivity).
    apply app_inj_2 in H as [_ H]; [discriminate|reflexivity].
  - replace (x ++ (stem ++ [".";"m";"d"]%char) ++ [y1; y2])
      with ((x ++ stem ++ [".";"m"]%char) ++ ["d"%char; y1; y2]) in H
      by (rewrite <- !app_assoc; reflexivity).
    replace (["*";" "]%char ++ stem ++ [".";"h";"t";"m";"l"]%char)
      with ((["*";" "]%char ++ stem ++ [".";"h"]%char) ++ ["t";"m";"l"]%char) in H
      by (rewrite <- !app_assoc; reflexivity).
    apply app_inj_2 in H as [_ H]; [discriminate|reflexivity].
  - replace (x ++ (stem ++ [".";"m";"d"]%char) ++ [y1; y2; y3])
      with ((x ++ stem ++ [".";"m"]%char) ++ ["d"%char; y1; y2; y3]) in H
      by (rewrite <- !app_assoc; reflexivity).
    replace (["*";" "]%char ++ stem ++ [".";"h";"t";"m";"l"]%char)
      with ((["*";" "]%char ++ stem ++ ["."]%char) ++ ["h";"t";"m";"l"]%char) in H
      by (rewrite <- !app_assoc; reflexivity).
    apply app_inj_2 in H as [_ H]; [discriminate|reflexivity].
  - replace (x ++ (stem ++ [".";"m";"d"]%char) ++ [y1; y2; y3; y4])
      with ((x ++ stem ++ [".";"m"]%char) ++ ["d"%char; y1; y2; y3; y4]) in H
      by (rewrite <- !app_assoc; reflexivity).
    replace (["*";" "]%char ++ stem ++ [".";"h";"t";"m";"l"]%char)
      with ((["*";" "]%char ++ stem) ++ [".";"h";"t";"m";"l"]%char) in H
      by (rewrite <- !app_assoc; reflexivity).
    apply app_inj_2 in H as [_ H]; [discriminate|reflexivity].
Qed.

(** C7 (as amended).  When the conversion, the rendering or the write of
    a page fails, the run exits at once with status 1.  Nothing after the
    failing page is processed.  The log then ends with two lines: the line
    [* outPath] of the failing page, which holds its output path and, for
    a [.md] source, not its source path; and the line that names the
    failed step, followed by the cause as the failing call worded it.
    After a failed conversion or rendering the disk is the one left by the
    pages processed before; a failed write can have touched the output
    path of the failing page, and nothing else. *)
Theorem render_failure_aborts env (tmpl : Template env) pre p post s s1 :
  forM pre (render_page env tmpl (pre ++ p :: post)) s = Return tt s1 →
  let pages := pre ++ p :: post in
  let outPath := outPath_of (AbsPath p) in
  let report cause := log s1 ++ [str "* " ++ outPath] ++ [cause] in
  (∀ e, md_Convert env (Text p) = inr e →
        render_all env tmpl pages s
        = Exit 1 {| disk := disk s1;
                    log := report (str "failed to convert markdown:" ++ e) |})
  ∧ (∀ body e, md_Convert env (Text p) = inl body →
               template_Execute env tmpl (set_HTML p body) pages = inr e →
               render_all env tmpl pages s
               = Exit 1 {| disk := disk s1;
                           log := report (str "failed to render page:" ++ e) |})
  ∧ (∀ body out d' e,
       md_Convert env (Text p) = inl body →
       template_Execute env tmpl (set_HTML p body) pages = inl out →
       os_WriteFile env (disk s1) outPath out mode_0600 = (d', Some e) →
       render_all env tmpl pages s
       = Exit 1 {| disk := d';
                   log := report (str "failed to write file:" ++ e) |}
       ∧ ∀ path, path ≠ outPath → d' !! path = disk s1 !! path)
  ∧ (filepath.Ext (AbsPath p) = str ".md" →
     ∀ x y, str "* " ++ outPath ≠ x ++ AbsPath p ++ y).
Proof.
  intros Hpre pages outPath report.
  assert (render_all env tmpl pages s
          = match render_page env tmpl pages p s1 with
            | Return _ s' => forM post (render_page env tmpl pages) s'
            | Exit code s' => Exit code s'
            end) as Hrun.
  { unfold render_all, pages. rewrite forM_app. fold pages. unfold pages at 1.
    rewrite Hpre. cbn [forM]. reflexivity. }
  rewrite Hrun, render_page_cases. cbv zeta. fold outPath.
  split; [|split; [|split]].
  - intros e ->. unfold report. rewrite <- app_assoc. reflexivity.
  - intros body e -> ->. unfold report. rewrite <- app_assoc. reflexivity.
  - intros body out d' e -> -> Hw. rewrite Hw. split.
    + unfold report. rewrite <- app_assoc. reflexivity.
    + intros path Hne.
      apply os_WriteFile_failed in Hw as [->|(part & mode & ->)]; [reflexivity|].
      apply lookup_insert_ne. congruence.
  - intros Hext x y.
    destruct (outPath_of_stem (AbsPath p)) as [Ha Ho]. unfold outPath.
    rewrite Hext in Ha, Ho.
    remember (TrimSuffix (AbsPath p) (str ".md")) as stem eqn:Hstem. clear Hstem.
    rewrite Ho, Ha. apply outPath_line_hides_source.
Qed.

Lemma render_failure_aborts_witness :
  ∃ s1 d',
    forM [ex_page "/s/b.md" "second"]
      (render_page (ex_env []) ex_layout
         ([ex_page "/s/b.md" "second"] ++ ex_page "/s/a.md" "first"
            :: [ex_page "/s/c.md" "third"])) ex_state_dir = Return tt s1
    ∧ render_all (ex_env []) ex_layout
        ([ex_page "/s/b.md" "second"] ++ ex_page "/s/a.md" "first"
           :: [ex_page "/s/c.md" "third"]) ex_state_dir
      = Exit 1 {| disk := d';
                  log := log s1 ++ [str "* " ++ str "/s/a.html"]
                         ++ [str "failed to write file:"
                             ++ str "open /s/a.html: is a directory"] |}
    ∧ d' !! str "/s/b.html" = disk s1 !! str "/s/b.html".
Proof.
  pose (pages := [ex_page "/s/b.md" "second"] ++ ex_page "/s/a.md" "first"
                 :: [ex_page "/s/c.md" "third"]).
  pose (s1 := final_state (forM [ex_page "/s/b.md" "second"]
                (render_page (ex_env []) ex_layout pages) ex_state_dir)).
  pose (d' := fst (os_WriteFile (ex_env []) (disk s1) (str "/s/a.html")
                     (ex_layout ++ str "<p>first</p>") mode_0600)).
  assert (forM [ex_page "/s/b.md" "second"]
            (render_page (ex_env []) ex_layout pages) ex_state_dir = Return tt s1)
    as Hpre by (vm_compute; reflexivity).
  destruct (proj1 (proj2 (proj2 (render_failure_aborts (ex_env []) ex_layout
              [ex_page "/s/b.md" "second"] (ex_page "/s/a.md" "first")
              [ex_page "/s/c.md" "third"] ex_state_dir s1 Hpre)))
              (str "<p>first</p>") (ex_layout ++ str "<p>first</p>") d'
              (str "open /s/a.html: is a directory")) as [H1 H2].
  - reflexivity.
  - vm_compute. reflexivity.
  - vm_compute. reflexivity.
  - exists s1, d'. split; [exact Hpre|]. split; [exact H1|].
    apply H2. discriminate.
Defined.

(** C7 as stated fails: [/s/a.html] is a directory, so that the page
    [/s/a.md] cannot be written; the run exits with status 1 after the
    page [/s/b.md], and no line of the log mentions [/s/a.md]: the log
    holds [* /s/b.html], [* /s/a.html] and
    [failed to write file:open /s/a.html: is a directory]. *)
Lemma render_failure_hides_source_path :
  ∃ s',
    main (ex_env ex_walk) [str "marc"; str "/s"] ex_state_dir = Exit 1 s'
    ∧ log s' = [str "* /s/b.html"; str "* /s/a.html";
                str "failed to write file:open /s/a.html: is a directory"]
    ∧ ¬ log_mentions s' (str "/s/a.md").
Proof.
  eexists. split; [vm_compute; reflexivity|]. split; [reflexivity|].
  intros (line & Hin & Hidx). cbn [log] in Hin.
  repeat (apply elem_of_cons in Hin as [->|Hin];
          [vm_compute in Hidx; apply Hidx; reflexivity|]).
  inversion Hin.
Qed.

(** C8 (as amended).  A page that is processed without failure has its
    rendered output at the path of its source with the extension replaced
    by [.html], so [dir/index.md] is written to [dir/index.html]; no other
    path changes.  A file that did not exist gets mode [0600] less the
    bits of the umask, which has no group or world permission; a file that
    existed is overwritten and keeps the mode it had. *)
Theorem render_page_output env (tmpl : Template env) pages p s s' :
  render_page env tmpl pages p s = Return tt s' →
  let outPath := outPath_of (AbsPath p) in
  let stem := TrimSuffix (AbsPath p) (filepath.Ext (AbsPath p)) in
  AbsPath p = stem ++ filepath.Ext (AbsPath p)
  ∧ outPath = stem ++ str ".html"
  ∧ (∀ dir, AbsPath p = dir ++ str "index.md" → outPath = dir ++ str "index.html")
  ∧ ∃ body out,
      md_Convert env (Text p) = inl body
      ∧ template_Execute env tmpl (set_HTML p body) pages = inl out
      ∧ log s' = log s ++ [str "* " ++ outPath]
      ∧ ((disk s !! outPath = None
          ∧ disk s' = <[outPath := File out (Z.ldiff mode_0600 (umask env))]> (disk s)
          ∧ owner_only (Z.ldiff mode_0600 (umask env)))
         ∨ (∃ old mode,
              disk s !! outPath = Some (File old mode)
              ∧ disk s' = <[outPath := File out mode]> (disk s))).
Proof.
  intros H outPath stem.
  destruct (outPath_of_stem (AbsPath p)) as [H1 H2].
  split; [exact H1|]. split; [exact H2|]. split.
  { intros dir Hd. unfold outPath. rewrite Hd. apply outPath_of_index_md. }
  rewrite render_page_cases in H. cbv zeta in H. fold outPath in H.
  destruct (md_Convert env (Text p)) as [body|e] eqn:Hc; [|discriminate].
  destruct (template_Execute env tmpl (set_HTML p body) pages) as [out|e] eqn:He;
    [|discriminate].
  destruct (os_WriteFile env (disk s) outPath out mode_0600)
    as [d' [e|]] eqn:Hw; [discriminate|].
  injection H as <-. exists body, out.
  split; [reflexivity|]. split; [exact He|]. split; [reflexivity|]. cbn [disk].
  apply os_WriteFile_done in Hw as [[Hn ->]|(old & mode & Ho & ->)].
  - left. split; [exact Hn|]. split; [reflexivity|apply owner_only_created].
  - right. eauto.
Qed.

Lemma render_page_output_witness :
  (∃ s', render_page (ex_env []) ex_layout []
           (ex_page "/s/blog/index.md" "hello") ex_state = Return tt s')
  ∧ outPath_of (AbsPath (ex_page "/s/blog/index.md" "hello"))
    = str "/s/blog/" ++ str "index.html".
Proof.
  split; [eexists; vm_compute; reflexivity|].
  refine (proj1 (proj2 (proj2
    (render_page_output (ex_env []) ex_layout []
       (ex_page "/s/blog/index.md" "hello") ex_state _ _))) (str "/s/blog/") _).
  - vm_compute. reflexivity.
  - reflexivity.
Defined.

(** C8 as stated fails: [/s/a.html] exists with mode [0644]; the
    page [/s/a.md] is rendered over it, and the file is still readable by
    group and world. *)
Lemma overwritten_output_keeps_mode :
  ∃ s',
    render_page (ex_env []) ex_layout [] (ex_page "/s/a.md" "first") ex_state
    = Return tt s'
    ∧ ex_disk !! str "/s/a.html" = Some (File (str "stale") 0x1A4)
    ∧ disk s' !! str "/s/a.html"
      = Some (File (ex_layout ++ str "<p>first</p>") 0x1A4)
    ∧ ¬ owner_only 0x1A4.
Proof.
  eexists. split; [vm_compute; reflexivity|].
  split; [vm_compute; reflexivity|]. split; [vm_compute; reflexivity|].
  unfold owner_only. vm_compute. discriminate.
Qed.
(** ** Discovery *)

Lemma readPage_exit env abspath siteDir s code s' :
  readPage env abspath siteDir s = Exit code s' →
  code = 1 ∧ disk s' = disk s ∧ ∃ line, log s' = log s ++ [line].
Proof.
  unfold readPage, bind, get_disk, log_Fatal, panic, ret.
  destruct (os_ReadFile (disk s) abspath) as [text|e].
  - destruct (readMeta_total text) as [[meta body] ->].
    destruct (filepath_Rel env siteDir abspath) as [relpath|e]; [discriminate|].
    intros [= <- <-]. cbn [disk log]. eauto.
  - intros [= <- <-]. cbn [disk log]. eauto.
Qed.

Lemma readPage_unreadable env abspath siteDir s e :
  os_ReadFile (disk s) abspath = inr e →
  readPage env abspath siteDir s
  = Exit 1 {| disk := disk s; log := log s ++ [str "failed to read page:" ++ e] |}.
Proof. intros H. unfold readPage, bind, get_disk, log_Fatal. rewrite H. reflexivity. Qed.

Lemma walkFn_cases env siteDir pages path err s :
  walkFn env siteDir pages path err s =
  if bool_decide (filepath.Ext path = str ".md") then
    match readPage env path siteDir s with
    | Return page s' => Return (pages ++ [page]) s'
    | Exit code s' => Exit code s'
    end
  else Return pages s.
Proof.
  unfold walkFn, Equal. destruct (bool_decide (filepath.Ext path = str ".md"));
    reflexivity.
Qed.

Lemma walkFn_return env siteDir pages path err s pages' s' :
  walkFn env siteDir pages path err s = Return pages' s' → s' = s.
Proof.
  rewrite walkFn_cases. destruct (bool_decide _).
  - destruct (readPage env path siteDir s) as [page s1|code s1] eqn:Hr; [|discriminate].
    apply readPage_inv in Hr as [-> _]. intros [= _ <-]. reflexivity.
  - intros [= _ <-]. reflexivity.
Qed.

Lemma walkFn_exit env siteDir pages path err s code s' :
  walkFn env siteDir pages path err s = Exit code s' →
  code = 1 ∧ disk s' = disk s ∧ ∃ line, log s' = log s ++ [line].
Proof.
  rewrite walkFn_cases. destruct (bool_decide _); [|discriminate].
  destruct (readPage env path siteDir s) as [page s1|code1 s1] eqn:Hr; [discriminate|].
  intros [= <- <-]. eapply readPage_exit. exact Hr.
Qed.

(** The error that the walk passes to the callback plays no part. *)
Lemma discover_from_ignores_err env siteDir visits pages s :
  discover_from env siteDir visits pages s
  = discover_from env siteDir (map (λ v, (v.1, None)) visits) pages s.
Proof.
  revert pages s. induction visits as [|[path err] visits IH]; intros pages s;
    [reflexivity|].
  cbn [discover_from map fst]. unfold bind.
  change (walkFn env siteDir pages path None s)
    with (walkFn env siteDir pages path err s).
  destruct (walkFn env siteDir pages path err s); [apply IH|reflexivity].
Qed.

(** A path that does not end in [.md] is passed over, error or not. *)
Lemma discover_from_skip env siteDir path err visits pages s :
  filepath.Ext path ≠ str ".md" →
  discover_from env siteDir ((path, err) :: visits) pages s
  = discover_from env siteDir visits pages s.
Proof.
  intros H. cbn [discover_from]. unfold bind. rewrite walkFn_cases.
  rewrite bool_decide_eq_false_2 by exact H. reflexivity.
Qed.

Lemma discover_from_unreadable env siteDir v1 path err v2 e pages s :
  filepath.Ext path = str ".md" →
  os_ReadFile (disk s) path = inr e →
  ∃ s', discover_from env siteDir (v1 ++ (path, err) :: v2) pages s = Exit 1 s'
        ∧ disk s' = disk s.
Proof.
  intros Hext Hr. revert pages s Hr.
  induction v1 as [|[p0 e0] v1 IH]; intros pages s Hr.
  - cbn [app discover_from]. unfold bind. rewrite walkFn_cases.
    rewrite bool_decide_eq_true_2 by exact Hext.
    rewrite (readPage_unreadable _ _ _ _ _ Hr). eexists. split; reflexivity.
  - cbn [app discover_from]. unfold bind.
    destruct (walkFn env siteDir pages p0 e0 s) as [pages' s1|code s1] eqn:Hw.
    + apply walkFn_return in Hw as ->. apply IH. exact Hr.
    + apply walkFn_exit in Hw as (-> & Hd & _). eauto.
Qed.

Lemma readTmpl_state env siteDir s :
  (∃ t, readTmpl env siteDir s = Return t s) ∨ readTmpl env siteDir s = Exit 2 s.
Proof.
  unfold readTmpl, bind, get_disk, ret, panic.
  destruct (os_ReadFile _ _) as [text|e].
  - destruct (template_Parse env text) as [t|e]; [left; eauto|].
    destruct (template_Parse env (default_text env)); [left; eauto|right; reflexivity].
  - destruct (template_Parse env (default_text env)); [left; eauto|right; reflexivity].
Qed.

(** C9 (as amended).  When the walk reaches a path that ends in [.md] and
    cannot be read, discovery stops the run with status 1 and the disk
    untouched, and so does [main].  The errors that the walk itself
    reports are not looked at: discovery goes on as if there were none. *)
Theorem discover_read_failure_fatal env arg0 siteDir v1 path err v2 e s :
  walk env siteDir = v1 ++ (path, err) :: v2 →
  filepath.Ext path = str ".md" →
  os_ReadFile (disk s) path = inr e →
  (∃ s', discover env siteDir s = Exit 1 s' ∧ disk s' = disk s)
  ∧ (∃ code s', main env [arg0; siteDir] s = Exit code s'
                ∧ code ≠ 0 ∧ disk s' = disk s)
  ∧ (∀ visits pages st,
       discover_from env siteDir visits pages st
       = discover_from env siteDir (map (λ v, (v.1, None)) visits) pages st).
Proof.
  intros Hwalk Hext Hr.
  destruct (discover_from_unreadable env siteDir v1 path err v2 e [] s Hext Hr)
    as (s' & Hd & Hdisk).
  assert (discover env siteDir s = Exit 1 s') as Hdisc
    by (unfold discover; rewrite Hwalk; exact Hd).
  split; [eauto|]. split; [|intros; apply discover_from_ignores_err].
  unfold main. cbn [length Nat.eqb negb lookup list_lookup]. unfold bind.
  destruct (readTmpl_state env siteDir s) as [[t ->]| ->].
  - rewrite Hdisc. exists 1, s'. split; [reflexivity|]. split; [lia|exact Hdisk].
  - exists 2, s. split; [reflexivity|]. split; [lia|reflexivity].
Qed.

Lemma discover_read_failure_fatal_witness :
  ∃ s', discover (ex_env [(str "/s", None); (str "/s/blog", None);
                          (str "/s/blog.md", None)]) (str "/s") ex_state
        = Exit 1 s'
        ∧ disk s' = disk ex_state.
Proof.
  refine (proj1 (discover_read_failure_fatal
            (ex_env [(str "/s", None); (str "/s/blog", None); (str "/s/blog.md", None)])
            (str "marc") (str "/s")
            [(str "/s", None); (str "/s/blog", None)] (str "/s/blog.md") None []
            (str "open /s/blog.md: no such file or directory") ex_state _ _ _)).
  - reflexivity.
  - vm_compute. reflexivity.
  - vm_compute. reflexivity.
Defined.

(** C9 as stated fails: the site root does not exist, the walk
    reports the error of [os.Lstat], and the run ends normally, with
    nothing logged and nothing written. *)
Lemma walk_error_not_fatal :
  walk_reports_error (ex_env ex_walk_missing) (str "/none")
  ∧ main (ex_env ex_walk_missing) [str "marc"; str "/none"] empty_state
    = Return tt empty_state.
Proof.
  split.
  - exists (str "/none"), (str "lstat /none: no such file or directory"). left.
  - vm_compute. reflexivity.
Qed.
(** ** More on [readMeta] *)

Lemma readMeta_inv b t body :
  readMeta b = Some (Some t, body) →
  ∃ pre, b = delim ++ pre ++ delim ++ body
         ∧ first_at (drop 3 b) delim pre body
         ∧ t = spec_meta pre.
Proof.
  rewrite readMeta_cases.
  destruct (bool_decide (delim `prefix_of` b)) eqn:Hp; [|discriminate].
  apply bool_decide_eq_true in Hp as [tl ->].
  change (drop 3 (delim ++ tl)) with tl. cbv zeta.
  destruct (Index_inv tl delim) as [[Hi _]|(pre & rest & Hf & Hi)]; rewrite Hi.
  { discriminate. }
  pose proof (len_nonneg pre). pose proof (len_nonneg rest).
  destruct (len pre =? -1) eqn:E; [apply Z.eqb_eq in E; lia|].
  pose proof Hf as [-> _].
  replace (len pre + 3) with (len delim + len pre) by (rewrite len_delim; lia).
  rewrite slice_middle. cbn [mbind option_bind].
  rewrite (app_assoc delim), (app_assoc (delim ++ pre)).
  rewrite slice_from_app by (rewrite ?len_app, ?len_delim; lia).
  cbn [mbind option_bind]. rewrite readMeta_loop. intros [= <- <-].
  exists pre. rewrite <- !app_assoc. auto.
Qed.

Lemma readMeta_nil_inv b body : readMeta b = Some (nil_map, body) → body = b.
Proof.
  rewrite readMeta_cases.
  destruct (bool_decide (delim `prefix_of` b)); [|intros [= <-]; reflexivity].
  cbv zeta. destruct (Index (drop 3 b) delim =? -1); [intros [= <-]; reflexivity|].
  destruct (slice b 3 _); [|discriminate]. cbn [mbind option_bind].
  destruct (slice_from b _); discriminate.
Qed.

(** X1.  [readMeta] never panics, and the body it returns is the end of
    the input: the whole input when the map is nil, and otherwise what
    follows a preamble of at least six bytes that starts the input. *)
Theorem readMeta_body_suffix (b : bytes) :
  ∃ m body,
    readMeta b = Some (m, body)
    ∧ body `suffix_of` b
    ∧ (m = nil_map → body = b)
    ∧ (∀ t, m = Some t →
            delim `prefix_of` b ∧ (length body + 6 ≤ length b)%nat).
Proof.
  destruct (readMeta_total b) as [[m body] H]. exists m, body.
  split; [exact H|]. destruct m as [t|].
  - apply readMeta_inv in H as (pre & Hb & _ & _).
    split; [|split; [discriminate|]].
    + rewrite Hb. exists (delim ++ pre ++ delim). rewrite <- !app_assoc. reflexivity.
    + intros _ _. split; [exists (pre ++ delim ++ body); exact Hb|].
      rewrite Hb, !length_app. change (length delim) with 3%nat. lia.
  - apply readMeta_nil_inv in H as ->. split; [reflexivity|].
    split; [reflexivity|discriminate].
Qed.

(** What [TrimSpace] returns is a part of its argument. *)
Lemma TrimSpace_infix s : ∃ x y, s = x ++ TrimSpace s ++ y.
Proof.
  unfold TrimSpace, TrimFunc. unfold TrimLeftFunc at 1.
  destruct (indexFunc s unicode.IsSpace false =? -1).
  - exists [], s. reflexivity.
  - unfold TrimRightFunc.
    set (i := Z.to_nat (indexFunc s unicode.IsSpace false)).
    set (j := Z.to_nat _).
    exists (take i s), (drop j (drop i s)).
    rewrite (take_drop j (drop i s)), take_drop. reflexivity.
Qed.

Lemma TrimSpace_elem c s : c ∈ TrimSpace s → c ∈ s.
Proof.
  destruct (TrimSpace_infix s) as (x & y & Hs). intros H. rewrite Hs.
  apply elem_of_app. right. apply elem_of_app. left. exact H.
Qed.

Lemma spec_lines_no_newline s l : l ∈ spec_lines s → nl ∉ l.
Proof.
  revert l. induction s as [|c s IH]; intros l Hl.
  - apply list_elem_of_singleton in Hl as ->. apply not_elem_of_nil.
  - cbn [spec_lines] in Hl. destruct (decide (c = nl)) as [->|Hne].
    + apply elem_of_cons in Hl as [->|Hl]; [apply not_elem_of_nil|exact (IH _ Hl)].
    + destruct (spec_lines s) as [|l0 ls] eqn:E.
      * apply list_elem_of_singleton in Hl as ->. intros Hin.
        apply list_elem_of_singleton in Hin. congruence.
      * apply elem_of_cons in Hl as [->|Hl].
        -- intros Hin. apply elem_of_cons in Hin as [Hin|Hin]; [congruence|].
           apply (IH l0); [left|exact Hin].
        -- apply IH. right. exact Hl.
Qed.

Lemma spec_cut_Some line k v :
  spec_cut line = Some (k, v) → line = k ++ ":"%char :: v ∧ (":"%char ∉ k).
Proof.
  revert k. induction line as [|c l IH]; intros k; [discriminate|].
  cbn [spec_cut]. destruct (decide (c = ":"%char)) as [->|Hne].
  - intros [= <- <-]. split; [reflexivity|apply not_elem_of_nil].
  - destruct (spec_cut l) as [[k0 v0]|]; [|discriminate].
    cbn. intros [= <- <-]. destruct (IH k0 eq_refl) as [-> Hk].
    split; [reflexivity|]. intros Hin. apply elem_of_cons in Hin as [Hin|Hin];
      [congruence|contradiction].
Qed.

(** X2.  Every entry of the map that [readMeta] returns comes from one
    line: its key holds neither a colon nor a newline, and its value holds
    no newline. *)
Theorem readMeta_entries_one_line b t body k v :
  readMeta b = Some (Some t, body) →
  t !! k = Some v →
  (":"%char ∉ k) ∧ (nl ∉ k) ∧ (nl ∉ v).
Proof.
  intros H Hk. apply readMeta_inv in H as (pre & _ & _ & ->).
  unfold spec_meta in Hk. apply elem_of_list_to_map_2 in Hk.
  rewrite elem_of_reverse in Hk. unfold spec_entries in Hk.
  apply list_elem_of_omap in Hk as (line & Hline & Hentry).
  unfold spec_entry in Hentry.
  destruct (spec_cut line) as [[k0 v0]|] eqn:Hcut; [|discriminate].
  cbn in Hentry. injection Hentry as <- <-.
  apply spec_cut_Some in Hcut as [-> Hcolon].
  pose proof (spec_lines_no_newline _ _ Hline) as Hnl.
  split; [|split].
  - intros Hin. apply Hcolon. apply TrimSpace_elem. exact Hin.
  - intros Hin. apply Hnl. apply elem_of_app. left. apply TrimSpace_elem. exact Hin.
  - intros Hin. apply Hnl. apply elem_of_app. right. right.
    apply TrimSpace_elem. exact Hin.
Qed.

Lemma readMeta_entries_one_line_witness :
  (":"%char ∉ str "date") ∧ (nl ∉ str "date") ∧ (nl ∉ str "2024-05-01").
Proof.
  apply (readMeta_entries_one_line
           (str "---" ++ newline ++ str "date: 2024-05-01" ++ newline
            ++ str "---" ++ newline ++ str "text")
           (<[str "date" := str "2024-05-01"]> ∅) (newline ++ str "text")).
  - vm_compute. reflexivity.
  - vm_compute. reflexivity.
Defined.
(** ** Reading back a preamble that was written out *)

Lemma readMeta_split pre rest :
  first_at (pre ++ delim ++ rest) delim pre rest →
  readMeta (delim ++ pre ++ delim ++ rest) = Some (Some (spec_meta pre), rest).
Proof.
  intros Hf. rewrite readMeta_cases.
  rewrite bool_decide_eq_true_2 by (eexists; reflexivity).
  change (drop 3 (delim ++ pre ++ delim ++ rest)) with (pre ++ delim ++ rest).
  cbv zeta. rewrite (Index_found _ _ _ _ Hf).
  pose proof (len_nonneg pre). pose proof (len_nonneg rest).
  destruct (len pre =? -1) eqn:E; [apply Z.eqb_eq in E; lia|].
  replace (len pre + 3) with (len delim + len pre) by (rewrite len_delim; lia).
  rewrite slice_middle. cbn [mbind option_bind].
  rewrite (app_assoc delim), (app_assoc (delim ++ pre)).
  rewrite slice_from_app by (rewrite ?len_app, ?len_delim; lia).
  cbn [mbind option_bind]. rewrite readMeta_loop. reflexivity.
Qed.

Lemma has_no_spec sep s : has_no sep s → ∀ x y, s ≠ x ++ sep ++ y.
Proof.
  unfold has_no. intros H.
  destruct (Index_inv s sep) as [[_ Hno]|(x & y & _ & Hi)]; [exact Hno|].
  pose proof (len_nonneg x). lia.
Qed.

Lemma has_no_elem c s : has_no [c] s → c ∉ s.
Proof.
  intros H Hin. apply list_elem_of_split in Hin as (x & y & ->).
  exact (has_no_spec _ _ H x y eq_refl).
Qed.

(** An instance of [---] in [a ++ c :: b], where [a] holds none and [c]
    is not a dash, lies in [b]. *)
Lemma delim_after_sep a c b x y :
  (∀ x y, a ≠ x ++ delim ++ y) → c ≠ "-"%char →
  a ++ c :: b = x ++ delim ++ y →
  ∃ x', x = a ++ c :: x' ∧ b = x' ++ delim ++ y.
Proof.
  intros Ha Hc. revert x. induction a as [|a0 a IH]; intros x H.
  - destruct x as [|x0 x]; cbn in H.
    + injection H as -> _. contradiction.
    + injection H as <- ->. exists x. split; reflexivity.
  - destruct x as [|x0 x]; cbn in H.
    + exfalso. injection H as -> H.
      destruct a as [|a1 a]; cbn in H; [injection H as -> _; contradiction|].
      injection H as -> H.
      destruct a as [|a2 a]; cbn in H; [injection H as -> _; contradiction|].
      injection H as -> H. apply (Ha [] a). reflexivity.
    + injection H as <- H.
      destruct (IH ltac:(intros x1 y1 ->; apply (Ha (a0 :: x1) y1); reflexivity) x H)
        as (x' & -> & ->).
      exists x'. split; reflexivity.
Qed.

Lemma delim_after_lines kvs tail x y :
  Forall wf_entry kvs →
  concat (map entry_line kvs) ++ tail = x ++ delim ++ y →
  ∃ x', x = concat (map entry_line kvs) ++ x' ∧ tail = x' ++ delim ++ y.
Proof.
  intros Hwf. revert x. induction Hwf as [|[k v] kvs Hkv Hwf IH]; intros x H.
  - exists x. split; [reflexivity|exact H].
  - destruct Hkv as (_ & _ & Hk & _ & _ & Hv & _). cbn [fst snd] in Hk, Hv.
    cbn [map concat] in H. unfold entry_line in H. cbn [fst snd] in H.
    unfold newline, str in H. cbn [String.list_ascii_of_string] in H.
    rewrite <- !app_assoc in H. cbn [app] in H.
    apply delim_after_sep in H as (x1 & -> & H);
      [|apply has_no_spec, Hk|discriminate].
    apply (delim_after_sep []) in H as (x2 & -> & H);
      [|intros [|??] ??; discriminate|discriminate].
    apply delim_after_sep in H as (x3 & -> & H);
      [|apply has_no_spec, Hv|discriminate].
    apply IH in H as (x4 & -> & ->). exists x4. split; [|reflexivity].
    cbn [map concat]. unfold entry_line. cbn [fst snd].
    unfold newline, str. cbn [String.list_ascii_of_string].
    rewrite <- !app_assoc. reflexivity.
Qed.

Lemma spec_lines_line l rest :
  nl ∉ l → spec_lines (l ++ nl :: rest) = l :: spec_lines rest.
Proof.
  induction l as [|c l IH]; intros Hl.
  - cbn [app spec_lines]. rewrite decide_True by reflexivity. reflexivity.
  - cbn [app spec_lines]. rewrite decide_False by (intros ->; apply Hl; left).
    rewrite IH by (intros Hin; apply Hl; right; exact Hin). reflexivity.
Qed.

(** [TrimSpace] removes ASCII white space in front of a trimmed text and
    leaves the text as it is. *)
Lemma TrimSpace_trimmed ws s :
  Forall ascii_space ws → trimmed s → TrimSpace (ws ++ s) = s.
Proof.
  intros Hws Hs. unfold trimmed in Hs.
  destruct s as [|c1 t] eqn:E.
  - rewrite app_nil_r. apply TrimSpace_blank, Hws.
  - rewrite <- E in *. assert (head s = Some c1) as Hh by (rewrite E; reflexivity).
    rewrite Hh in Hs. destruct (last s) as [c2|] eqn:Hl.
    + apply last_Some in Hl as [h Hl]. apply andb_true_iff in Hs as [H1 H2].
      rewrite <- (app_nil_r s) at 1.
      apply (TrimSpace_ascii ws [] s c1 t c2 h);
        [exact Hws|constructor|exact E|exact Hl|
         apply nonspaceb_true, H1|apply nonspaceb_true, H2].
    + rewrite E in Hl. rewrite last_cons in Hl. destruct (last t); discriminate.
Qed.

Lemma spec_entry_line kv :
  wf_entry kv → spec_entry (kv.1 ++ str ": " ++ kv.2) = Some kv.
Proof.
  destruct kv as [k v]. intros (Hc & _ & _ & Hk & _ & _ & Hv). cbn [fst snd] in *.
  unfold spec_entry. unfold str. cbn [String.list_ascii_of_string app].
  rewrite spec_cut_colon by (apply has_no_elem, Hc). cbn.
  rewrite <- (app_nil_l k) at 1. rewrite (TrimSpace_trimmed [] k) by (constructor || exact Hk).
  change (" "%char :: v) with ([" "%char] ++ v).
  rewrite (TrimSpace_trimmed [" "%char] v); [reflexivity| |exact Hv].
  constructor; [|constructor]. split; [vm_compute|]; reflexivity.
Qed.

Lemma spec_lines_entries kvs :
  Forall wf_entry kvs →
  spec_lines (concat (map entry_line kvs))
  = map (λ kv, kv.1 ++ str ": " ++ kv.2) kvs ++ [[]].
Proof.
  induction 1 as [|kv kvs Hkv Hwf IH]; [reflexivity|].
  cbn [map concat]. unfold entry_line at 1. unfold newline.
  replace ((kv.1 ++ str ": " ++ kv.2 ++ [nl]) ++ concat (map entry_line kvs))
    with ((kv.1 ++ str ": " ++ kv.2) ++ nl :: concat (map entry_line kvs))
    by (rewrite <- !app_assoc; reflexivity).
  rewrite spec_lines_line, IH; [reflexivity|].
  destruct Hkv as (_ & Hk & _ & _ & Hv & _). intros Hin.
  apply elem_of_app in Hin as [Hin|Hin]; [exact (has_no_elem _ _ Hk Hin)|].
  apply elem_of_app in Hin as [Hin|Hin]; [|exact (has_no_elem _ _ Hv Hin)].
  unfold str in Hin. cbn in Hin.
  repeat (apply elem_of_cons in Hin as [Hin|Hin]; [discriminate|]).
  inversion Hin.
Qed.

Lemma spec_entries_front kvs :
  Forall wf_entry kvs →
  spec_entries (newline ++ concat (map entry_line kvs)) = kvs.
Proof.
  intros Hwf. unfold spec_entries, newline. cbn [app spec_lines].
  rewrite decide_True by reflexivity. rewrite spec_lines_entries by exact Hwf.
  cbn [omap list_omap]. change (spec_entry []) with (@None (bytes * bytes)). cbv iota.
  induction Hwf as [|kv kvs Hkv Hwf IH]; [reflexivity|].
  cbn [map app]. cbn [omap list_omap]. rewrite spec_entry_line by exact Hkv.
  f_equal. exact IH.
Qed.

(** X3.  Round trip: a document written as [---], a newline, one line
    [key: value] for each pair, [---] and the rest, is read back as the
    map of these pairs (a later pair winning over an earlier one with the
    same key) and the rest, provided every pair fits on a line: a trimmed
    key without colon, a trimmed value, and neither newline nor [---] in
    them. *)
Theorem readMeta_front_matter kvs rest :
  Forall wf_entry kvs →
  readMeta (front_matter kvs rest)
  = Some (Some (list_to_map (reverse kvs)), rest)
  ∧ (NoDup kvs.*1 →
     ∀ k v, (k, v) ∈ kvs →
            map_index (Some (list_to_map (reverse kvs))) k = v).
Proof.
  intros Hwf. split.
  - unfold front_matter.
    replace (delim ++ newline ++ concat (map entry_line kvs) ++ delim ++ rest)
      with (delim ++ (newline ++ concat (map entry_line kvs)) ++ delim ++ rest)
      by (rewrite <- !app_assoc; reflexivity).
    rewrite readMeta_split.
    + unfold spec_meta. rewrite spec_entries_front by exact Hwf. reflexivity.
    + split; [reflexivity|]. intros x y H. unfold newline in H.
      rewrite <- app_assoc in H. cbn [app] in H.
      apply (delim_after_sep []) in H as (x1 & -> & H);
        [|intros [|??] ??; discriminate|discriminate].
      apply delim_after_lines in H as (x2 & -> & _); [|exact Hwf].
      unfold newline. cbn [app length]. rewrite length_app. lia.
  - intros Hnd k v Hin. unfold map_index.
    rewrite (elem_of_list_to_map_1 (reverse kvs) k v); [reflexivity| |].
    + rewrite fmap_reverse, reverse_Permutation. exact Hnd.
    + rewrite elem_of_reverse. exact Hin.
Qed.

Lemma readMeta_front_matter_witness :
  readMeta (front_matter [(str "title", str "A -- B"); (str "date", str "2024-05-01")]
                         (newline ++ str "# text"))
  = Some (Some (list_to_map
                  (reverse [(str "title", str "A -- B");
                            (str "date", str "2024-05-01")])),
          newline ++ str "# text").
Proof.
  apply (readMeta_front_matter
           [(str "title", str "A -- B"); (str "date", str "2024-05-01")]
           (newline ++ str "# text")).
  repeat constructor; vm_compute; reflexivity.
Defined.
(** ** The [sort.Interface] of [Pages] *)

Lemma Compare_gt_trans a b c :
  0 < Compare a b → 0 < Compare b c → 0 < Compare a c.
Proof.
  intros H1 H2.
  assert (Compare c a <= 0) as Hle.
  { apply (Compare_le_trans c b a); rewrite Compare_antisym; lia. }
  rewrite Compare_antisym in Hle.
  destruct (Z.eq_dec (Compare a c) 0) as [E|E]; [|lia].
  apply Compare_eq in E as ->. rewrite (Compare_antisym b c) in H1. lia.
Qed.

(** X4.  [Pages.Less] is defined exactly for indices in range, and on
    them it is a strict weak order, as [sort.Stable] requires: no page is
    less than itself, [Less] is transitive, and two pages of which neither
    is less than the other have the same sort key, so that either can
    stand for the other in any comparison. *)
Theorem Pages_Less_strict_weak (p : Pages) :
  (∀ i j, is_Some (Pages_Less p i j)
          ↔ (i < Pages_Len p)%nat ∧ (j < Pages_Len p)%nat)
  ∧ (∀ i, Pages_Less p i i ≠ Some true)
  ∧ (∀ i j k, Pages_Less p i j = Some true → Pages_Less p j k = Some true →
              Pages_Less p i k = Some true)
  ∧ (∀ i j pi pj, p !! i = Some pi → p !! j = Some pj →
                  Pages_Less p i j = Some false → Pages_Less p j i = Some false →
                  sortKey pi = sortKey pj)
  ∧ (∀ i j k, Pages_Less p i j = Some false → Pages_Less p j i = Some false →
              Pages_Less p i k = Pages_Less p j k
              ∧ Pages_Less p k i = Pages_Less p k j).
Proof.
  unfold Pages_Less, Pages_Len.
  assert (∀ i j pi pj, p !! i = Some pi → p !! j = Some pj →
            (pi' ← p !! i; pj' ← p !! j;
             Some (0 <? Compare (sortKey pi') (sortKey pj'))) = Some false →
            (pi' ← p !! j; pj' ← p !! i;
             Some (0 <? Compare (sortKey pi') (sortKey pj'))) = Some false →
            sortKey pi = sortKey pj) as Heq.
  { intros i j pi pj Hi Hj. rewrite Hi, Hj. cbn. intros [= H1] [= H2].
    apply Z.ltb_ge in H1, H2. apply Compare_eq.
    rewrite Compare_antisym in H2. lia. }
  split; [|split; [|split; [|split]]].
  - intros i j. rewrite <- !lookup_lt_is_Some. split.
    + intros [b Hb]. destruct (p !! i); [|discriminate].
      destruct (p !! j); [|discriminate]. split; eauto.
    + intros [[pi ->] [pj ->]]. cbn. eauto.
  - intros i. destruct (p !! i) as [pi|]; [|discriminate]. cbn.
    rewrite Compare_refl. discriminate.
  - intros i j k. destruct (p !! i) as [pi|]; [|discriminate].
    destruct (p !! j) as [pj|]; [|discriminate]. cbn.
    destruct (p !! k) as [pk|]; [|discriminate]. cbn.
    intros [= H1] [= H2]. apply Z.ltb_lt in H1, H2. f_equal. apply Z.ltb_lt.
    eapply Compare_gt_trans; eassumption.
  - exact Heq.
  - intros i j k H1 H2.
    destruct (p !! i) as [pi|] eqn:Hi; [|discriminate].
    destruct (p !! j) as [pj|] eqn:Hj; [|discriminate].
    assert (sortKey pi = sortKey pj) as E.
    { apply (Heq i j pi pj Hi Hj); rewrite Hi, Hj; assumption. }
    cbn. destruct (p !! k) as [pk|]; [|split; reflexivity]. cbn.
    rewrite E. split; reflexivity.
Qed.

(** X5.  [Pages.Swap] panics exactly when an index is out of range;
    otherwise it exchanges the two pages and leaves every other position
    as it was, so that the pages are the same up to order, and swapping
    again with the same indices restores the slice. *)
Theorem Pages_Swap_exchanges (p : Pages) (i j : nat) :
  (Pages_Swap p i j = None ↔ (Pages_Len p ≤ i)%nat ∨ (Pages_Len p ≤ j)%nat)
  ∧ (∀ p', Pages_Swap p i j = Some p' →
           p' !! i = p !! j ∧ p' !! j = p !! i
           ∧ (∀ k, k ≠ i → k ≠ j → p' !! k = p !! k)
           ∧ length p' = length p
           ∧ p' ≡ₚ p
           ∧ Pages_Swap p' i j = Some p).
Proof.
  unfold Pages_Swap, Pages_Len.
  assert (∀ q q' : Pages, (pi ← q !! i; pj ← q !! j; Some (<[j:=pi]> (<[i:=pj]> q))) = Some q' →
            q' !! i = q !! j ∧ q' !! j = q !! i
            ∧ (∀ k, k ≠ i → k ≠ j → q' !! k = q !! k)
            ∧ length q' = length q) as Hsw.
  { intros q q' H.
    destruct (q !! i) as [pi|] eqn:Hi; [|discriminate].
    destruct (q !! j) as [pj|] eqn:Hj; [|discriminate].
    cbn in H. injection H as <-.
    pose proof (lookup_lt_Some _ _ _ Hi). pose proof (lookup_lt_Some _ _ _ Hj).
    split; [|split; [|split]].
    - destruct (decide (i = j)) as [->|Hne].
      + rewrite list_lookup_insert_eq by (rewrite length_insert; lia). congruence.
      + rewrite list_lookup_insert_ne by congruence.
        rewrite list_lookup_insert_eq by lia. reflexivity.
    - rewrite list_lookup_insert_eq by (rewrite length_insert; lia). reflexivity.
    - intros k Hki Hkj. rewrite !list_lookup_insert_ne by congruence. reflexivity.
    - rewrite !length_insert. reflexivity. }
  split.
  - rewrite <- !lookup_ge_None. split.
    + destruct (p !! i); [|auto]. destruct (p !! j); [discriminate|auto].
    + intros [-> | H]; [reflexivity|]. destruct (p !! i); [|reflexivity].
      rewrite H. reflexivity.
  - intros p' H. destruct (Hsw p p' H) as (H1 & H2 & H3 & H4).
    split; [exact H1|]. split; [exact H2|]. split; [exact H3|]. split; [exact H4|].
    assert ((pi ← p' !! i; pj ← p' !! j; Some (<[j:=pi]> (<[i:=pj]> p'))) = Some p)
      as Hback.
    { destruct (p !! i) as [pi|] eqn:Hi; [|discriminate].
      destruct (p !! j) as [pj|] eqn:Hj; [|discriminate].
      rewrite H1, H2. cbn. f_equal. apply list_eq. intros k.
      destruct (decide (k = j)) as [->|Hkj].
      - rewrite list_lookup_insert_eq by (rewrite length_insert, H4;
          apply lookup_lt_Some in Hj; lia). congruence.
      - rewrite list_lookup_insert_ne by congruence.
        destruct (decide (k = i)) as [->|Hki].
        + rewrite list_lookup_insert_eq by (rewrite H4; apply lookup_lt_Some in Hi; lia).
          congruence.
        + rewrite list_lookup_insert_ne by congruence. apply H3; assumption. }
    split; [|exact Hback].
    destruct (p !! i) as [pi|] eqn:Hi; [|discriminate].
    destruct (p !! j) as [pj|] eqn:Hj; [|discriminate].
    cbn in H. injection H as <-.
    destruct (decide (i = j)) as [->|Hne].
    + rewrite list_insert_insert_eq. assert (pi = pj) as -> by congruence.
      rewrite list_insert_id by exact Hj. reflexivity.
    + apply Permutation_inj. split; [rewrite !length_insert; reflexivity|].
      exists (λ k, if decide (k = i) then j else if decide (k = j) then i else k).
      split.
      * intros a b Hab. repeat case_decide; subst; congruence.
      * intros k. repeat case_decide; subst.
        -- rewrite list_lookup_insert_ne by congruence.
           rewrite list_lookup_insert_eq by (apply lookup_lt_Some in Hi; lia).
           congruence.
        -- rewrite list_lookup_insert_eq
             by (rewrite length_insert; apply lookup_lt_Some in Hj; lia).
           congruence.
        -- rewrite !list_lookup_insert_ne by congruence. reflexivity.
Qed.
(** ** More on URLs and output paths *)

Lemma plain_html : plain (str "html").
Proof.
  intros c Hc. unfold str in Hc. simpl in Hc.
  repeat (apply elem_of_cons in Hc as [->|Hc]; [split; discriminate|]).
  inversion Hc.
Qed.

(** X6.  The URL is the empty string, the site root, exactly for the
    paths whose part before the extension is [index]: [index.md], but no
    path inside a directory. *)
Theorem url_of_root (relpath : bytes) :
  url_of relpath = []
  ↔ TrimSuffix relpath (filepath.Ext relpath) = str "index".
Proof.
  unfold url_of. set (stem := TrimSuffix relpath (filepath.Ext relpath)). split.
  - intros H.
    destruct (decide (str "index.html" `suffix_of` stem ++ str ".html")) as [[x Hx]|Hn].
    + rewrite Hx, TrimSuffix_app in H. subst x. cbn [app] in Hx.
      change (str "index.html") with (str "index" ++ str ".html") in Hx.
      apply app_inv_tail in Hx. exact Hx.
    + rewrite TrimSuffix_no_suffix in H by exact Hn.
      apply app_eq_nil in H as [_ H]. discriminate H.
  - intros ->. reflexivity.
Qed.

(** X7.  The output path always has the extension [.html].  Two sources
    with the same extension and different paths have different output
    paths, so no two [.md] sources are written to the same file, and the
    output of a [.md] source is never a [.md] path: a source is never
    overwritten and an output is never taken for a source. *)
Theorem outPath_of_html :
  (∀ a, filepath.Ext (outPath_of a) = str ".html")
  ∧ (∀ a b, filepath.Ext a = filepath.Ext b → outPath_of a = outPath_of b → a = b)
  ∧ (∀ a b, filepath.Ext b = str ".md" → outPath_of a ≠ b).
Proof.
  assert (∀ a, filepath.Ext (outPath_of a) = str ".html") as Hext.
  { intros a. unfold outPath_of. apply (Ext_app _ (str "html")), plain_html. }
  split; [exact Hext|]. split.
  - intros a b He Ho. destruct (outPath_of_stem a) as [Ha Ha'].
    destruct (outPath_of_stem b) as [Hb Hb']. rewrite Ha', Hb' in Ho.
    apply app_inv_tail in Ho. rewrite Ha, Hb, Ho, He. reflexivity.
  - intros a b Hb Heq. specialize (Hext a). rewrite Heq, Hb in Hext. discriminate.
Qed.

(** ** More on [readPage] and the discovery *)

(** X8.  [readPage] never panics and never changes the state when it
    returns: the page has the given path, the metadata and body that
    [readMeta] finds in the file, the URL of its relative path and no HTML
    yet.  It fails only by [log.Fatal], with status 1, the disk untouched
    and one more line in the log: the read error of the file, or else the
    error of [filepath.Rel]. *)
Theorem readPage_outcome env abspath siteDir s :
  (∀ page s', readPage env abspath siteDir s = Return page s' →
     s' = s ∧ AbsPath page = abspath ∧ HTML page = []
     ∧ Url page = url_of (RelPath page)
     ∧ filepath_Rel env siteDir abspath = inl (RelPath page)
     ∧ ∃ text, os_ReadFile (disk s) abspath = inl text
               ∧ readMeta text = Some (Meta page, Text page))
  ∧ (∀ code s', readPage env abspath siteDir s = Exit code s' →
       code = 1 ∧ disk s' = disk s
       ∧ ((∃ e, os_ReadFile (disk s) abspath = inr e
                ∧ log s' = log s ++ [str "failed to read page:" ++ e])
          ∨ (∃ text e, os_ReadFile (disk s) abspath = inl text
                ∧ filepath_Rel env siteDir abspath = inr e
                ∧ log s' = log s ++ [str "failed to get page extension:" ++ e]))).
Proof.
  split.
  - intros page s' H.
    apply readPage_inv in H as (-> & text & meta & body & relpath & Hr & Hm & Hrel & ->).
    cbn. repeat split; try reflexivity; [exact Hrel|]. exists text. auto.
  - intros code s'. unfold readPage, bind, get_disk, log_Fatal, panic, ret.
    destruct (os_ReadFile (disk s) abspath) as [text|e] eqn:Hr.
    + destruct (readMeta_total text) as [[meta body] ->].
      destruct (filepath_Rel env siteDir abspath) as [relpath|e]; [discriminate|].
      intros [= <- <-]. cbn. split; [reflexivity|]. split; [reflexivity|].
      right. exists text, e. auto.
    + intros [= <- <-]. cbn. split; [reflexivity|]. split; [reflexivity|].
      left. exists e. auto.
Qed.

Lemma discover_from_return env siteDir visits pages0 s pages s' :
  discover_from env siteDir visits pages0 s = Return pages s' →
  s' = s
  ∧ ∃ new, pages = pages0 ++ new
      ∧ map AbsPath new
        = filter (λ p, filepath.Ext p = str ".md") (map fst visits)
      ∧ Forall (λ pg, readPage env (AbsPath pg) siteDir s = Return pg s) new.
Proof.
  revert pages0. induction visits as [|[path err] visits IH]; intros pages0 H.
  - injection H as <- <-. split; [reflexivity|]. exists [].
    rewrite app_nil_r. auto.
  - cbn [discover_from] in H. unfold bind in H.
    destruct (walkFn env siteDir pages0 path err s) as [pages1 s1|] eqn:Hw;
      [|discriminate].
    pose proof (walkFn_return _ _ _ _ _ _ _ _ Hw) as ->.
    apply IH in H as (-> & new & -> & Hnew & Hall). split; [reflexivity|].
    rewrite walkFn_cases in Hw. cbn [map fst]. rewrite filter_cons.
    destruct (decide (filepath.Ext path = str ".md")) as [He|He].
    + rewrite bool_decide_eq_true_2 in Hw by exact He.
      destruct (readPage env path siteDir s) as [page s2|] eqn:Hr; [|discriminate].
      injection Hw as <- _.
      pose proof Hr as Hr'. apply readPage_inv in Hr' as (-> & text & meta & body & relpath & _ & _ & _ & Hp).
      exists (page :: new). rewrite <- app_assoc. split; [reflexivity|].
      assert (AbsPath page = path) as Hpath by (rewrite Hp; reflexivity).
      split; [cbn [map]; rewrite Hpath, Hnew; reflexivity|].
      constructor; [rewrite Hpath; exact Hr|exact Hall].
    + rewrite bool_decide_eq_false_2 in Hw by exact He. injection Hw as <-.
      exists new. auto.
Qed.

(** X9.  When the discovery returns, it has changed nothing, and the
    pages it found are, in the order of the walk, those of the visited
    paths whose extension is [.md] and only those, each one what
    [readPage] makes of its file. *)
Theorem discover_pages env siteDir s pages s' :
  discover env siteDir s = Return pages s' →
  s' = s
  ∧ map AbsPath pages
    = filter (λ p, filepath.Ext p = str ".md") (map fst (walk env siteDir))
  ∧ Forall (λ pg, readPage env (AbsPath pg) siteDir s = Return pg s) pages.
Proof.
  unfold discover. intros H.
  apply discover_from_return in H as (-> & new & -> & H1 & H2). auto.
Qed.

Lemma discover_pages_witness :
  ∃ pages,
    discover (ex_env ex_walk) (str "/s") ex_state = Return pages ex_state
    ∧ map AbsPath pages = [str "/s/a.md"; str "/s/b.md"; str "/s/blog/index.md"].
Proof.
  eexists. split; [vm_compute; reflexivity|].
  refine (proj1 (proj2 (discover_pages (ex_env ex_walk) (str "/s") ex_state _ ex_state _))).
  vm_compute. reflexivity.
Defined.
(** ** What the render pass writes *)

Lemma render_page_frame env (tmpl : Template env) pages p s :
  let s' := final_state (render_page env tmpl pages p s) in
  (∀ path, path ≠ outPath_of (AbsPath p) → disk s' !! path = disk s !! path)
  ∧ (∀ path, is_Some (disk s !! path) → is_Some (disk s' !! path)).
Proof.
  rewrite render_page_cases. cbv zeta.
  destruct (md_Convert env (Text p)) as [body|e]; [|split; auto].
  destruct (template_Execute env tmpl (set_HTML p body) pages) as [out|e];
    [|split; auto].
  destruct (os_WriteFile _ _ _ _ _) as [d' [e|]] eqn:Hw.
  - cbn [final_state disk].
    apply os_WriteFile_failed in Hw as [->|(part & mode & ->)]; [split; auto|].
    split.
    + intros path Hne. apply lookup_insert_ne. congruence.
    + intros path Hsome. rewrite lookup_insert. case_decide; [eauto|exact Hsome].
  - cbn [final_state disk].
    assert (∃ m, d' = <[outPath_of (AbsPath p) := File out m]> (disk s)) as [m ->].
    { apply os_WriteFile_done in Hw as [[_ ->]|(old & mode & _ & ->)]; eauto. }
    split.
    + intros path Hne. apply lookup_insert_ne. congruence.
    + intros path Hsome. rewrite lookup_insert. case_decide; [eauto|exact Hsome].
Qed.

Lemma forM_render_frame env (tmpl : Template env) pages todo s :
  let s' := final_state (forM todo (render_page env tmpl pages) s) in
  (∀ path, path ∉ map (λ p, outPath_of (AbsPath p)) todo →
           disk s' !! path = disk s !! path)
  ∧ (∀ path, is_Some (disk s !! path) → is_Some (disk s' !! path)).
Proof.
  revert s. induction todo as [|p todo IH]; intros s; [split; auto|].
  cbn [forM]. unfold bind.
  pose proof (render_page_frame env tmpl pages p s) as [F1 F2].
  destruct (render_page env tmpl pages p s) as [[] s1|code s1]; cbn [final_state] in *.
  - destruct (IH s1) as [G1 G2]. split.
    + intros path Hnot. cbn [map] in Hnot. apply not_elem_of_cons in Hnot as [Hne Hnot].
      rewrite G1 by exact Hnot. apply F1. exact Hne.
    + intros path Hsome. apply G2, F2, Hsome.
  - split.
    + intros path Hnot. cbn [map] in Hnot. apply not_elem_of_cons in Hnot as [Hne _].
      apply F1. exact Hne.
    + exact F2.
Qed.

(** X10.  However the render pass ends, it has deleted no file, and every
    path that is not the output path of one of the pages holds what it
    held before. *)
Theorem render_all_frame env (tmpl : Template env) pages s :
  let s' := final_state (render_all env tmpl pages s) in
  (∀ path, path ∉ map (λ p, outPath_of (AbsPath p)) pages →
           disk s' !! path = disk s !! path)
  ∧ (∀ path, is_Some (disk s !! path) → is_Some (disk s' !! path)).
Proof. apply forM_render_frame. Qed.

Lemma render_page_return env (tmpl : Template env) pages p s s' :
  render_page env tmpl pages p s = Return tt s' →
  log s' = log s ++ [str "* " ++ outPath_of (AbsPath p)]
  ∧ ∃ body out mode,
      md_Convert env (Text p) = inl body
      ∧ template_Execute env tmpl (set_HTML p body) pages = inl out
      ∧ disk s' !! outPath_of (AbsPath p) = Some (File out mode).
Proof.
  rewrite render_page_cases. cbv zeta.
  destruct (md_Convert env (Text p)) as [body|e]; [|discriminate].
  destruct (template_Execute env tmpl (set_HTML p body) pages) as [out|e] eqn:He;
    [|discriminate].
  destruct (os_WriteFile _ _ _ _ _) as [d' [e|]] eqn:Hw; [discriminate|].
  intros [= <-]. cbn [log disk]. split; [reflexivity|].
  apply os_WriteFile_done in Hw as [[_ ->]|(old & mode & _ & ->)];
    eexists body, out, _; (split; [reflexivity|split; [exact He|apply lookup_insert_eq]]).
Qed.

Lemma forM_render_return env (tmpl : Template env) pages todo s s' :
  forM todo (render_page env tmpl pages) s = Return tt s' →
  log s' = log s ++ map (λ p, str "* " ++ outPath_of (AbsPath p)) todo
  ∧ (NoDup (map (λ p, outPath_of (AbsPath p)) todo) →
     ∀ p, p ∈ todo →
       ∃ body out mode,
         md_Convert env (Text p) = inl body
         ∧ template_Execute env tmpl (set_HTML p body) pages = inl out
         ∧ disk s' !! outPath_of (AbsPath p) = Some (File out mode)).
Proof.
  revert s. induction todo as [|p todo IH]; intros s H.
  - injection H as <-. split; [rewrite app_nil_r; reflexivity|].
    intros _ q Hq. inversion Hq.
  - cbn [forM] in H. unfold bind in H.
    destruct (render_page env tmpl pages p s) as [[] s1|] eqn:Hp; [|discriminate].
    apply render_page_return in Hp as (Hlog & body & out & mode & Hc & He & Hd).
    destruct (IH s1 H) as [Hlog' Hall]. split.
    + rewrite Hlog', Hlog, <- app_assoc. reflexivity.
    + cbn [map]. intros Hnd q Hq. apply NoDup_cons in Hnd as [Hnot Hnd].
      apply elem_of_cons in Hq as [->|Hq]; [|exact (Hall Hnd q Hq)].
      exists body, out, mode. split; [exact Hc|]. split; [exact He|].
      pose proof (forM_render_frame env tmpl pages todo s1) as [F _].
      rewrite H in F. cbn [final_state] in F. rewrite F by exact Hnot. exact Hd.
Qed.

(** X11.  A render pass that comes to its end has logged one line
    [* outPath] for each page, in the order of the pages; and when the
    pages have different output paths, the output file of every page holds
    what the layout made of that page with its converted body and the
    whole list of pages. *)
Theorem render_all_done env (tmpl : Template env) pages s s' :
  render_all env tmpl pages s = Return tt s' →
  log s' = log s ++ map (λ p, str "* " ++ outPath_of (AbsPath p)) pages
  ∧ (NoDup (map (λ p, outPath_of (AbsPath p)) pages) →
     ∀ p, p ∈ pages →
       ∃ body out mode,
         md_Convert env (Text p) = inl body
         ∧ template_Execute env tmpl (set_HTML p body) pages = inl out
         ∧ disk s' !! outPath_of (AbsPath p) = Some (File out mode)).
Proof. apply forM_render_return. Qed.

Lemma render_all_done_witness :
  ∃ s',
    render_all (ex_env []) ex_layout
      [ex_page "/s/b.md" "second"; ex_page "/s/a.md" "first"] ex_state
    = Return tt s'
    ∧ log s' = log ex_state
               ++ map (λ p, str "* " ++ outPath_of (AbsPath p))
                    [ex_page "/s/b.md" "second"; ex_page "/s/a.md" "first"].
Proof.
  eexists. split; [vm_compute; reflexivity|].
  refine (proj1 (render_all_done (ex_env []) ex_layout
            [ex_page "/s/b.md" "second"; ex_page "/s/a.md" "first"] ex_state _ _)).
  vm_compute. reflexivity.
Defined.

(** ** The layout *)

(** X12.  [readTmpl] fails in one case only, a panic of [template.Must]:
    the built-in layout does not parse, and [base.tmpl] gives no template
    either (it cannot be read or does not parse).  A [base.tmpl] that
    parses is returned even when the built-in layout is broken.  In every
    case the state is left as it was. *)
Theorem readTmpl_outcome env siteDir s :
  let tmplPath := filepath_Join env siteDir (str "base.tmpl") in
  let usable := ∃ text t, os_ReadFile (disk s) tmplPath = inl text
                          ∧ template_Parse env text = inl t in
  (∀ code s', readTmpl env siteDir s = Exit code s' ↔
              code = 2 ∧ s' = s ∧ ¬ usable
              ∧ ∃ e, template_Parse env (default_text env) = inr e)
  ∧ (∀ t s', readTmpl env siteDir s = Return t s' → s' = s)
  ∧ (∀ text t, os_ReadFile (disk s) tmplPath = inl text →
               template_Parse env text = inl t →
               readTmpl env siteDir s = Return t s).
Proof.
  intros tmplPath usable. unfold usable.
  unfold readTmpl, bind, get_disk, ret, panic. fold tmplPath.
  destruct (os_ReadFile (disk s) tmplPath) as [text|e0] eqn:Hr.
  - destruct (template_Parse env text) as [t|e1] eqn:Hp.
    + split; [|split].
      * intros code s'. split; [discriminate|].
        intros (_ & _ & Hno & _). exfalso. apply Hno. eauto.
      * intros t' s' [= _ <-]. reflexivity.
      * intros text' t' [= <-] Hp'. rewrite Hp in Hp'. injection Hp' as <-. reflexivity.
    + destruct (template_Parse env (default_text env)) as [dt|e2] eqn:Hd.
      * split; [|split].
        -- intros code s'. split; [discriminate|].
           intros (_ & _ & _ & e & He). discriminate.
        -- intros t' s' [= _ <-]. reflexivity.
        -- intros text' t' [= <-] Hp'. congruence.
      * split; [|split].
        -- intros code s'. split.
           ++ intros [= <- <-]. split; [reflexivity|]. split; [reflexivity|].
              split; [|eauto]. intros (text' & t' & [= <-] & Hp'). congruence.
           ++ intros (-> & -> & _). reflexivity.
        -- discriminate.
        -- intros text' t' [= <-] Hp'. congruence.
  - destruct (template_Parse env (default_text env)) as [dt|e2] eqn:Hd.
    + split; [|split].
      * intros code s'. split; [discriminate|].
        intros (_ & _ & _ & e & He). discriminate.
      * intros t' s' [= _ <-]. reflexivity.
      * discriminate.
    + split; [|split].
      * intros code s'. split.
        -- intros [= <- <-]. split; [reflexivity|]. split; [reflexivity|].
           split; [|eauto]. intros (text' & t' & Hr' & _). discriminate.
        -- intros (-> & -> & _). reflexivity.
      * discriminate.
      * discriminate.
Qed.
(** ** The whole run *)

Lemma discover_from_exit env siteDir visits pages s code s' :
  discover_from env siteDir visits pages s = Exit code s' →
  code = 1 ∧ disk s' = disk s.
Proof.
  revert pages. induction visits as [|[path err] visits IH]; intros pages H;
    [discriminate|].
  cbn [discover_from] in H. unfold bind in H.
  destruct (walkFn env siteDir pages path err s) as [pages1 s1|code1 s1] eqn:Hw.
  - apply walkFn_return in Hw as ->. exact (IH _ H).
  - injection H as <- <-. apply walkFn_exit in Hw as (-> & Hd & _). auto.
Qed.

Lemma main_two_args env arg0 siteDir s :
  main env [arg0; siteDir] s =
  match readTmpl env siteDir s with
  | Exit code s1 => Exit code s1
  | Return baseTmpl s1 =>
    match discover env siteDir s1 with
    | Exit code s2 => Exit code s2
    | Return pages s2 => render_all env baseTmpl (isort pages) s2
    end
  end.
Proof.
  unfold main. cbn [length Nat.eqb negb lookup list_lookup]. unfold bind.
  destruct (readTmpl env siteDir s) as [t s1|]; [|reflexivity].
  destruct (discover env siteDir s1) as [pages s2|]; [|reflexivity].
  rewrite Stable_isort. reflexivity.
Qed.

(** X13.  A run of [main] on a site root that comes to its end has read
    the layout, found the pages of the visited [.md] paths, sorted them by
    descending sort key (pages of equal key in the order of the walk) and
    rendered them in that order: the log has grown by one line
    [* outPath] per page, in the sorted order. *)
Theorem main_done env arg0 siteDir s s' :
  main env [arg0; siteDir] s = Return tt s' →
  ∃ (baseTmpl : Template env) pages sorted,
    readTmpl env siteDir s = Return baseTmpl s
    ∧ discover env siteDir s = Return pages s
    ∧ map AbsPath pages
      = filter (λ p, filepath.Ext p = str ".md") (map fst (walk env siteDir))
    ∧ Stable pages = Some sorted
    ∧ sorted ≡ₚ pages ∧ descending sorted ∧ stable_wrt pages sorted
    ∧ render_all env baseTmpl sorted s = Return tt s'
    ∧ log s' = log s ++ map (λ p, str "* " ++ outPath_of (AbsPath p)) sorted.
Proof.
  intros H. rewrite main_two_args in H.
  destruct (readTmpl env siteDir s) as [t s1|] eqn:Ht; [|discriminate].
  assert (s1 = s) as ->.
  { destruct (readTmpl_state env siteDir s) as [[t' Ht']|Ht']; congruence. }
  destruct (discover env siteDir s) as [pages s2|] eqn:Hd; [|discriminate].
  pose proof Hd as Hd'. unfold discover in Hd'.
  apply discover_from_return in Hd' as (-> & new & Hp & Hnew & _).
  cbn [app] in Hp. subst new.
  exists t, pages, (isort pages).
  split; [reflexivity|]. split; [reflexivity|]. split; [exact Hnew|].
  split; [apply Stable_isort|]. split; [apply isort_perm|].
  split; [apply isort_is_descending|]. split; [intros k; apply isort_stable|].
  split; [exact H|]. apply forM_render_return in H as [Hlog _]. exact Hlog.
Qed.

Lemma main_done_witness :
  ∃ s' sorted,
    main (ex_env ex_walk) [str "marc"; str "/s"] ex_state = Return tt s'
    ∧ descending sorted
    ∧ log s' = log ex_state
               ++ map (λ p, str "* " ++ outPath_of (AbsPath p)) sorted.
Proof.
  destruct (main_done (ex_env ex_walk) (str "marc") (str "/s") ex_state
              (final_state (main (ex_env ex_walk) [str "marc"; str "/s"] ex_state)))
    as (t & pages & sorted & _ & _ & _ & _ & _ & Hdesc & _ & _ & Hlog).
  { vm_compute. reflexivity. }
  exists (final_state (main (ex_env ex_walk) [str "marc"; str "/s"] ex_state)), sorted.
  split; [vm_compute; reflexivity|]. split; [exact Hdesc|exact Hlog].
Defined.

(** X14.  Whatever its arguments and however it ends, a run of [main]
    deletes no file and leaves every path whose extension is not [.html]
    as it was, the sources among them.  With a number of arguments other
    than one it stops with a non-zero status before it touches anything. *)
Theorem main_writes_html_only env args s :
  let s' := final_state (main env args s) in
  (∀ path, filepath.Ext path ≠ str ".html" → disk s' !! path = disk s !! path)
  ∧ (∀ path, is_Some (disk s !! path) → is_Some (disk s' !! path))
  ∧ (length args ≠ 2%nat →
     ∃ code, main env args s = Exit code s' ∧ code ≠ 0 ∧ disk s' = disk s).
Proof.
  destruct args as [|arg0 [|siteDir [|arg2 args]]].
  - cbn. split; [auto|]. split; [auto|]. intros _. exists 2. split; [reflexivity|].
    split; [lia|reflexivity].
  - cbn. split; [auto|]. split; [auto|]. intros _. exists 1. split; [reflexivity|].
    split; [lia|reflexivity].
  - rewrite main_two_args. split; [|split; [|intros H; cbn in H; lia]].
    + intros path Hext.
      destruct (readTmpl_state env siteDir s) as [[t ->]| ->]; [|reflexivity].
      destruct (discover env siteDir s) as [pages s2|code s2] eqn:Hd.
      * unfold discover in Hd. apply discover_from_return in Hd as (-> & _).
        apply (proj1 (forM_render_frame env t (isort pages) (isort pages) s)).
        intros Hin. apply list_elem_of_fmap in Hin as (p & -> & _).
        apply Hext. unfold outPath_of. apply (Ext_app _ (str "html")), plain_html.
      * unfold discover in Hd. apply discover_from_exit in Hd as (_ & Hdisk).
        cbn [final_state]. rewrite Hdisk. reflexivity.
    + intros path Hsome.
      destruct (readTmpl_state env siteDir s) as [[t ->]| ->]; [|exact Hsome].
      destruct (discover env siteDir s) as [pages s2|code s2] eqn:Hd.
      * unfold discover in Hd. apply discover_from_return in Hd as (-> & _).
        apply (proj2 (forM_render_frame env t (isort pages) (isort pages) s)).
        exact Hsome.
      * unfold discover in Hd. apply discover_from_exit in Hd as (_ & Hdisk).
        cbn [final_state]. rewrite Hdisk. exact Hsome.
  - cbn. split; [auto|]. split; [auto|]. intros _. exists 1. split; [reflexivity|].
    split; [lia|reflexivity].
Qed.

Lemma forM_render_exit env (tmpl : Template env) pages todo s code s' :
  forM todo (render_page env tmpl pages) s = Exit code s' → code = 1.
Proof.
  revert s. induction todo as [|p todo IH]; intros s H; [discriminate|].
  cbn [forM] in H. unfold bind in H.
  destruct (render_page env tmpl pages p s) as [[] s1|code1 s1] eqn:Hp.
  - exact (IH _ H).
  - injection H as <- _. rewrite render_page_cases in Hp. cbv zeta in Hp.
    destruct (md_Convert env (Text p)); [|injection Hp as <-; reflexivity].
    destruct (template_Execute env tmpl _ pages); [|injection Hp as <-; reflexivity].
    destruct (os_WriteFile _ _ _ _ _) as [d' [e|]]; [|discriminate].
    injection Hp as <-. reflexivity.
Qed.

(** X15.  When [main] does not come to its end it has stopped through
    [log.Fatal], with status 1, except in two cases of panic: [os.Args] is
    empty, or the built-in layout does not parse and [template.Must] is
    reached.  No slice expression of [readMeta] and no index of the sort
    ever goes out of range. *)
Theorem main_exit_status env args s code s' :
  main env args s = Exit code s' →
  code = 1
  ∨ (code = 2
     ∧ (args = [] ∨ ∃ e, template_Parse env (default_text env) = inr e)).
Proof.
  destruct args as [|arg0 [|siteDir [|arg2 args]]].
  - intros [= <- _]. right. auto.
  - intros [= <- _]. left. reflexivity.
  - rewrite main_two_args.
    destruct (readTmpl env siteDir s) as [t s1|code1 s1] eqn:Ht.
    + destruct (discover env siteDir s1) as [pages s2|code2 s2] eqn:Hd.
      * intros H. left. exact (forM_render_exit _ _ _ _ _ _ _ H).
      * intros [= <- _]. left. unfold discover in Hd.
        apply discover_from_exit in Hd as [-> _]. reflexivity.
    + intros [= <- _]. right.
      unfold readTmpl, bind, get_disk, ret, panic in Ht.
      destruct (os_ReadFile _ _) as [text|e0].
      * destruct (template_Parse env text) as [t|e1]; [discriminate|].
        destruct (template_Parse env (default_text env)) as [dt|e2] eqn:Hdt;
          [discriminate|]. injection Ht as <- _. eauto.
      * destruct (template_Parse env (default_text env)) as [dt|e2] eqn:Hdt;
          [discriminate|]. injection Ht as <- _. eauto.
  - intros [= <- _]. left. reflexivity.
Qed.

Lemma main_exit_status_witness :
  ∃ s', main (ex_env [(str "/s/x.md", None)]) [str "marc"; str "/s"] ex_state
        = Exit 1 s'
        ∧ log s' = [str "failed to read page:open /s/x.md: no such file or directory"]
        ∧ (1 = 1
           ∨ (1 = 2
              ∧ ([str "marc"; str "/s"] = []
                 ∨ ∃ e, template_Parse (ex_env [(str "/s/x.md", None)])
                          (default_text (ex_env [(str "/s/x.md", None)])) = inr e))).
Proof.
  eexists. split; [vm_compute; reflexivity|]. split; [vm_compute; reflexivity|].
  apply (main_exit_status (ex_env [(str "/s/x.md", None)])
           [str "marc"; str "/s"] ex_state 1
           (final_state (main (ex_env [(str "/s/x.md", None)])
                           [str "marc"; str "/s"] ex_state))).
  vm_compute. reflexivity.
Defined.
